(** * redisorm: query construction and reply decoding

    A shallow embedding of the Go packages [query] (expression AST,
    compiler, FT.SEARCH / FT.AGGREGATE builders) and [scan] (reply
    decoder, typed assignment), together with the parts of the Go
    standard library they rely on ([strings], [strconv]).

    Conventions.
    - A Go [string] is a byte sequence: Rocq's [string] (a list of 8-bit
      [ascii]).
    - Go's [int] and [int64] are 64-bit; they are modelled as [Z].
    - A Go function returning [(T, error)] returns a [result T]; a
      run-time panic is a third outcome, [Panic].
    - Go maps are [gmap]s; slices are lists read with [!!] and written
      with [<[i:=x]>], the bounds check being written out. *)

From Stdlib Require Import ZArith String Ascii List DecimalString DecimalPos.
From stdpp Require Import gmap strings list fin_maps sorting.

Set Warnings "-register-all,-clear-no-such-hyp".
Open Scope string_scope.

(** ** Outcomes of a Go call *)

Inductive panic : Type :=
| IndexOutOfRange (i len : nat)   (* runtime error: index out of range [i] with length len *)
| MakesliceLen                    (* runtime error: makeslice: len out of range *)
| NumFieldOfNonStruct             (* reflect: NumField of non-struct type *)
| SetUnexportedField.             (* reflect: value obtained using unexported field *)

Inductive result (A : Type) : Type :=
| Ok (a : A)
| Err (msg : string)
| Panic (p : panic).
Arguments Ok {A} a.
Arguments Err {A} msg.
Arguments Panic {A} p.

#[global] Instance result_ret : MRet result := λ A a, Ok a.
#[global] Instance result_bind : MBind result := λ A B k r,
  match r with
  | Ok a => k a
  | Err e => Err e
  | Panic p => Panic p
  end.

#[global] Instance result_fmap : FMap result := λ A B f r,
  match r with
  | Ok a => Ok (f a)
  | Err e => Err e
  | Panic p => Panic p
  end.

Definition is_Ok {A} (r : result A) : bool :=
  match r with Ok _ => true | _ => false end.
Definition is_Panic {A} (r : result A) : bool :=
  match r with Panic _ => true | _ => false end.

(** ** Package strings *)

Module strings.

Definition byte_of (c : ascii) : N := N_of_ascii c.

(** The six ASCII white-space bytes: tab, LF, VT, FF, CR, space. *)
Definition asciiSpace (c : ascii) : bool :=
  match byte_of c with
  | 9 | 10 | 11 | 12 | 13 | 32 => true
  | _ => false
  end%N.

(** [stripSpaceRune s] removes one leading white-space rune
    ([unicode.IsSpace]) from the UTF-8 bytes [s], when there is one:
    the ASCII spaces, U+0085, U+00A0, U+1680, U+2000..U+200A, U+2028,
    U+2029, U+202F, U+205F and U+3000.  Anything else (other runes,
    invalid UTF-8) is not white space. *)
Definition stripSpaceRune (s : string) : option string :=
  match s with
  | String a r =>
      if asciiSpace a then Some r
      else
        match byte_of a, r with
        | 0xC2, String b r' =>
            if (byte_of b =? 0x85) || (byte_of b =? 0xA0) then Some r' else None
        | 0xE1, String b (String c r') =>
            if (byte_of b =? 0x9A) && (byte_of c =? 0x80) then Some r' else None
        | 0xE2, String b (String c r') =>
            if ((byte_of b =? 0x80) &&
                  (((0x80 <=? byte_of c) && (byte_of c <=? 0x8A))
                   || (byte_of c =? 0xA8) || (byte_of c =? 0xA9) || (byte_of c =? 0xAF)))
               || ((byte_of b =? 0x81) && (byte_of c =? 0x9F))
            then Some r' else None
        | 0xE3, String b (String c r') =>
            if (byte_of b =? 0x80) && (byte_of c =? 0x80) then Some r' else None
        | _, _ => None
        end
  | EmptyString => None
  end%N.

(** The same, for a trailing rune, on the reversed bytes. *)
Definition stripSpaceRuneRev (s : list ascii) : option (list ascii) :=
  match s with
  | a :: r =>
      if asciiSpace a then Some r
      else
        match r with
        | b :: r' =>
            if (byte_of b =? 0xC2) && ((byte_of a =? 0x85) || (byte_of a =? 0xA0))
            then Some r'
            else
              match r' with
              | c :: r'' =>
                  match stripSpaceRune (String c (String b (String a EmptyString))) with
                  | Some EmptyString => Some r''
                  | _ => None
                  end
              | [] => None
              end
        | [] => None
        end
  | [] => None
  end%N.

Fixpoint trimLeftLoop (fuel : nat) (s : string) : string :=
  match fuel with
  | O => s
  | S fuel' =>
      match stripSpaceRune s with
      | Some r => trimLeftLoop fuel' r
      | None => s
      end
  end.

Fixpoint trimRightLoop (fuel : nat) (s : list ascii) : list ascii :=
  match fuel with
  | O => s
  | S fuel' =>
      match stripSpaceRuneRev s with
      | Some r => trimRightLoop fuel' r
      | None => s
      end
  end.

Definition TrimLeftSpace (s : string) : string :=
  trimLeftLoop (String.length s) s.

Definition TrimRightSpace (s : string) : string :=
  string_of_list_ascii
    (rev (trimRightLoop (String.length s) (rev (list_ascii_of_string s)))).

(** [strings.TrimSpace]: leading and trailing white space removed. *)
Definition TrimSpace (s : string) : string :=
  TrimRightSpace (TrimLeftSpace s).

(** [strings.HasPrefix]. *)
Definition HasPrefix (s pre : string) : bool := String.prefix pre s.

(** [strings.TrimPrefix]. *)
Definition TrimPrefix (s pre : string) : string :=
  if HasPrefix s pre
  then String.substring (String.length pre) (String.length s - String.length pre) s
  else s.

(** [strings.Split(s, sep)[0]] for a one-byte separator: the bytes
    before the first separator (all of [s] when there is none). *)
Fixpoint SplitHead (s : string) (sep : ascii) : string :=
  match s with
  | EmptyString => EmptyString
  | String c r => if Ascii.eqb c sep then EmptyString else String c (SplitHead r sep)
  end.

Definition lowerByte (c : ascii) : ascii :=
  let n := byte_of c in
  if ((65 <=? n) && (n <=? 90))%N then ascii_of_N (n + 32) else c.

Fixpoint lower (s : string) : string :=
  match s with
  | EmptyString => EmptyString
  | String c r => String (lowerByte c) (lower r)
  end.

(** [strings.EqualFold] compares under Unicode simple case folding.
    Among the ASCII letters only K and S have a non-ASCII partner
    (U+212A, U+017F), so against a pattern made of other ASCII letters,
    as in both uses below ("COUNT", "true"), folding is the ASCII one. *)
Definition EqualFold (s t : string) : bool := String.eqb (lower s) (lower t).

(** [strings.Split(s, sep)] for a one-byte separator: the pieces
    between separators, at least one, empty pieces kept. *)
Fixpoint Split (s : string) (sep : ascii) : list string :=
  match s with
  | EmptyString => [EmptyString]
  | String c r =>
      if Ascii.eqb c sep then EmptyString :: Split r sep
      else
        match Split r sep with
        | piece :: pieces => String c piece :: pieces
        | [] => [String c EmptyString]
        end
  end.

Definition upperByte (c : ascii) : ascii :=
  let n := byte_of c in
  if ((97 <=? n) && (n <=? 122))%N then ascii_of_N (n - 32) else c.

(** [strings.ToUpper].  The runes whose upper case is an ASCII letter
    are a..z, U+0131 (C4 B1, giving I) and U+017F (C5 BF, giving S);
    every other non-ASCII rune, and every invalid byte, gives a
    non-ASCII rune.  The model maps the former and keeps other bytes:
    it agrees with Go whenever either result is ASCII, which is all a
    comparison with an ASCII constant looks at. *)
Fixpoint ToUpper (s : string) : string :=
  match s with
  | EmptyString => EmptyString
  | String a r =>
      match r with
      | String b r' =>
          if ((byte_of a =? 0xC4) && (byte_of b =? 0xB1))%N then String "I" (ToUpper r')
          else if ((byte_of a =? 0xC5) && (byte_of b =? 0xBF))%N then String "S" (ToUpper r')
          else String (upperByte a) (ToUpper r)
      | EmptyString => String (upperByte a) EmptyString
      end
  end.

End strings.

(** ** Package strconv *)

Module strconv.

Local Open Scope Z_scope.

(** [strconv.FormatInt(n, 10)] and [strconv.Itoa]. *)
Definition FormatInt (n : Z) : string := NilZero.string_of_int (Z.to_int n).
Definition Itoa (n : Z) : string := FormatInt n.

Definition digit (c : ascii) : option Z :=
  let n := Z.of_N (N_of_ascii c) in
  if (48 <=? n) && (n <=? 57) then Some (n - 48) else None.

(** [strconv.ParseUint(s, 10, 64)] on a non-empty [s], as the
    accumulating loop: a byte that is not a decimal digit is a syntax
    error, a value above [2^64 - 1] a range error. *)
Fixpoint parseDigits (s : string) (acc : Z) : option Z :=
  match s with
  | EmptyString => Some acc
  | String c r =>
      match digit c with
      | None => None
      | Some d =>
          let acc' := acc * 10 + d in
          if 2 ^ 64 <=? acc' then None else parseDigits r acc'
      end
  end.

Definition ParseUint (s : string) : option Z :=
  match s with
  | EmptyString => None
  | _ => parseDigits s 0
  end.

(** [strconv.ParseInt(s, 10, 64)]; [None] stands for [err != nil]. *)
Definition ParseInt (s : string) : option Z :=
  match s with
  | EmptyString => None
  | String c r =>
      let '(neg, s') :=
        if Ascii.eqb c "+" then (false, r)
        else if Ascii.eqb c "-" then (true, r)
        else (false, s) in
      match ParseUint s' with
      | None => None
      | Some un =>
          let cutoff := 2 ^ 63 in
          if negb neg && (cutoff <=? un) then None
          else if neg && (cutoff <? un) then None
          else Some (if neg then - un else un)
      end
  end.

End strconv.

(** ** Package scan: the reply decoder *)

Module scan.

(** A [float64] reply value is observed by the decoder only through
    its renderings: [strconv.FormatFloat(t, 'f', -1, 64)] in [toStr]
    and the [%v] verb of package fmt. *)
Record float64 : Type := { fmt_f : string; fmt_v : string }.

(** The dynamic values an [any] reply can hold, one constructor for
    each type the decoder's type switches tell apart; [VOther] is any
    other dynamic type, given by its [%T] name and [fmt.Sprint] text.
    The entries of a [map[interface{}]interface{}] are listed in the
    order in which [range] visits them. *)
Inductive value : Type :=
| VNil
| VString (s : string)
| VBytes (bs : string)
| VInt64 (n : Z)
| VFloat64 (f : float64)
| VArr (xs : list value)
| VMapStr (m : gmap string value)
| VMapAny (kvs : list (value * value))
| VSliceCmd (cmd : string) (val : list value)
| VOther (tname sprint : string).

(** A decoded row, [map[string]string]. *)
Abbreviation row := (gmap string string).

(** The [%T] verb. *)
Definition typeName (v : value) : string :=
  match v with
  | VNil => "<nil>"
  | VString _ => "string"
  | VBytes _ => "[]uint8"
  | VInt64 _ => "int64"
  | VFloat64 _ => "float64"
  | VArr _ => "[]interface {}"
  | VMapStr _ => "map[string]interface {}"
  | VMapAny _ => "map[interface {}]interface {}"
  | VSliceCmd _ _ => "*redis.SliceCmd"
  | VOther t _ => t
  end.

Definition entry (kv : string * string) : string := kv.1 ++ ":" ++ kv.2.

Definition key_le (a b : string * string) : Prop := String.leb a.1 b.1 = true.

#[local] Instance key_le_dec a b : Decision (key_le a b).
Proof. unfold key_le. apply _. Defined.

(** [fmt.Sprint] of one operand: scalars print bare, a byte slice as
    its decimal bytes, a slice as [[a b]], a map as [map[k:v k:v]].
    String-keyed maps print with sorted keys; for interface-keyed
    maps the listed order is kept. *)
Fixpoint Sprint (v : value) : string :=
  match v with
  | VNil => "<nil>"
  | VString s => s
  | VBytes bs =>
      "[" ++ String.concat " "
               (List.map (λ c, strconv.FormatInt (Z.of_N (N_of_ascii c)))
                         (list_ascii_of_string bs)) ++ "]"
  | VInt64 n => strconv.FormatInt n
  | VFloat64 f => fmt_v f
  | VArr xs => "[" ++ String.concat " " (List.map Sprint xs) ++ "]"
  | VMapStr m =>
      "map[" ++ String.concat " "
                  (List.map entry (merge_sort key_le (map_to_list (Sprint <$> m)))) ++ "]"
  | VMapAny kvs =>
      "map[" ++ String.concat " "
                  (List.map (λ kv, Sprint kv.1 ++ ":" ++ Sprint kv.2) kvs) ++ "]"
  | VSliceCmd cmd _ => cmd
  | VOther _ s => s
  end.

(** func toStr(v interface{}) string *)
Definition toStr (v : value) : string :=
  match v with
  | VString t => strings.TrimSpace t
  | VBytes t => strings.TrimSpace t
  | VInt64 t => strconv.FormatInt t
  | VFloat64 t => fmt_f t
  | t => strings.TrimSpace (Sprint t)
  end.

(** The conversion loop
      for k, val := range v { m[toStr(k)] = val }
    used for interface-keyed maps in [normalize] and [extractHits]. *)
Definition strKeyed (kvs : list (value * value)) : gmap string value :=
  foldl (λ m kv, <[toStr kv.1 := kv.2]> m) ∅ kvs.

(** func normalize(raw any) (any, error) *)
Definition normalize (raw : value) : result value :=
  match raw with
  | VSliceCmd _ val => Ok (VArr val)
  | VArr v => Ok (VArr v)
  | VMapStr v => Ok (VMapStr v)
  | VMapAny v => Ok (VMapStr (strKeyed v))
  | _ => Err ("scan: unsupported reply type " ++ typeName raw)
  end.

(** One iteration of the RESP-3 loop of [extractHits]: the hit as a
    string-keyed map, then the payload chosen from it. *)
Definition hitMap (r : value) : result (gmap string value) :=
  match r with
  | VMapStr h => Ok h
  | VMapAny h => Ok (strKeyed h)
  | _ => Err ("scan: unknown hit type " ++ typeName r)
  end.

Definition hitPayload (hit : gmap string value) : value :=
  match hit !! "extra_attributes" with
  | Some ea => ea
  | None =>
      match hit !! "values" with
      | Some vals => vals
      | None => VMapStr hit
      end
  end.

(** for i, r := range resultsRaw { ...; hits[i] = ... } *)
Fixpoint resultsLoop (rs : list value) (i : nat) (hits : list value)
  : result (list value) :=
  match rs with
  | [] => Ok hits
  | r :: rs' =>
      hit ← hitMap r;
      resultsLoop rs' (S i) (<[i := hitPayload hit]> hits)
  end.

(** for i := 0; i < total; i++ { hits[i] = arr[i*2+2] }
    with [n] the iterations left; the read is bounds-checked. *)
Fixpoint arrayLoop (arr : list value) (n : nat) (i : nat) (hits : list value)
  : result (list value) :=
  match n with
  | O => Ok hits
  | S n' =>
      match arr !! (i * 2 + 2) with
      | Some x => arrayLoop arr n' (S i) (<[i := x]> hits)
      | None => Panic (IndexOutOfRange (i * 2 + 2) (length arr))
      end
  end.

(** func extractHits(reply any) (int, []any, error)
    [make([]any, total)] panics on a negative length.  A length too
    large to allocate also ends the call abnormally, inside [make]; the
    model reaches the out-of-range read of the loop instead. *)
Definition extractHits (reply : value) : result (Z * list value) :=
  match reply with
  | VMapStr top =>
      match top !! "results" with
      | Some (VArr resultsRaw) =>
          hits ← resultsLoop resultsRaw 0 (replicate (length resultsRaw) VNil);
          Ok (Z.of_nat (length hits), hits)
      | _ => Err "scan: missing results array"
      end
  | VArr arr =>
      match arr with
      | [] => Ok (0%Z, [])
      | VInt64 count :: _ =>
          let total := count in
          if (total <? 0)%Z then Panic MakesliceLen
          else
            hits ← arrayLoop arr (Z.to_nat total) 0 (replicate (Z.to_nat total) VNil);
            Ok (total, hits)
      | _ :: _ => Err "scan: first array element is not int64"
      end
  | _ => Err ("scan: unrecognised reply " ++ typeName reply)
  end.

(** for i := 0; i+1 < len(t); i += 2 { m[toStr(t[i])] = toStr(t[i+1]) }
    with [fuel] bounding the number of iterations. *)
Fixpoint kvLoop (t : list value) (fuel : nat) (i : nat) (m : row) : row :=
  match fuel with
  | O => m
  | S fuel' =>
      if decide (i + 1 < length t) then
        match t !! i, t !! (i + 1) with
        | Some k, Some v => kvLoop t fuel' (i + 2) (<[toStr k := toStr v]> m)
        | _, _ => m
        end
      else m
  end.

(** func toStrMap(v any) (map[string]string, error) *)
Definition toStrMap (v : value) : result row :=
  match v with
  | VArr t => Ok (kvLoop t (length t) 0 ∅)
  | VMapAny t => Ok (foldl (λ m kv, <[toStr kv.1 := toStr kv.2]> m) ∅ t)
  | VMapStr t => Ok (toStr <$> t)
  | _ => Err ("scan: unsupported kv type " ++ typeName v)
  end.

(** for i, kv := range hits { m, err := toStrMap(kv); ...; out[i] = m }
    the write [out[i] = m] is bounds-checked. *)
Fixpoint rowsLoop (hits : list value) (i : nat) (out : list row)
  : result (list row) :=
  match hits with
  | [] => Ok out
  | kv :: hits' =>
      m ← toStrMap kv;
      if decide (i < length out) then rowsLoop hits' (S i) (<[i := m]> out)
      else Panic (IndexOutOfRange i (length out))
  end.

(** func DecodeMaps(raw any) ([]map[string]string, error) *)
Definition DecodeMaps (raw : value) : result (list row) :=
  reply ← normalize raw;
  '(total, hits) ← extractHits reply;
  rowsLoop hits 0 (replicate (Z.to_nat total) ∅).

(** *** Typed assignment *)

(** [reflect.Kind], as far as [assign] tells kinds apart. *)
Inductive Kind : Type :=
| KString | KInt | KInt64 | KInt32 | KFloat32 | KFloat64 | KBool | KOther.

#[global] Instance Kind_eq_dec : EqDecision Kind.
Proof. solve_decision. Defined.

Definition Kind_code (k : Kind) : nat :=
  match k with
  | KString => 0 | KInt => 1 | KInt64 => 2 | KInt32 => 3
  | KFloat32 => 4 | KFloat64 => 5 | KBool => 6 | KOther => 7
  end.

Definition Kind_of_code (n : nat) : Kind :=
  match n with
  | 0 => KString | 1 => KInt | 2 => KInt64 | 3 => KInt32
  | 4 => KFloat32 | 5 => KFloat64 | 6 => KBool | _ => KOther
  end.

#[global] Instance Kind_countable : Countable Kind.
Proof. apply (inj_countable' Kind_code Kind_of_code). by intros []. Defined.

(** One field of a struct type, as [reflect.StructField] shows it:
    the value of the [redisorm] key of its tag (empty when the key is
    absent), whether the field is exported, and its kind. *)
Record StructField : Type :=
  { Tag : string; Exported : bool; FieldKind : Kind }.

#[global] Instance StructField_eq_dec : EqDecision StructField.
Proof. solve_decision. Defined.

#[global] Instance StructField_countable : Countable StructField.
Proof.
  apply (inj_countable' (λ f, (Tag f, Exported f, FieldKind f))
                        (λ t, {| Tag := t.1.1; Exported := t.1.2; FieldKind := t.2 |})).
  by intros [].
Defined.

(** The type parameter [T] of [assign] and [DecodeSlice]. *)
Inductive rtype : Type :=
| TMap                                  (* map[string]string *)
| TStruct (fields : list StructField)
| TNonStruct.                           (* any other type, e.g. any *)

(** type fieldMeta struct { name string; index []int; kind reflect.Kind }
    [buildMeta] stores the index of a top-level field, a path of
    length one. *)
Record fieldMeta : Type :=
  { name : string; index : nat; kind : Kind }.

(** func buildMeta(rt reflect.Type) []fieldMeta, on a struct type *)
Fixpoint buildMetaLoop (fields : list StructField) (i : nat) (out : list fieldMeta)
  : list fieldMeta :=
  match fields with
  | [] => out
  | f :: fields' =>
      let tag := Tag f in
      if String.eqb tag "" then buildMetaLoop fields' (S i) out
      else
        let name := strings.TrimPrefix (strings.SplitHead tag ",") "@" in
        buildMetaLoop fields' (S i)
          (out ++ [{| name := name; index := i; kind := FieldKind f |}])
  end.

Definition buildMeta (rt : rtype) : result (list fieldMeta) :=
  match rt with
  | TStruct fields => Ok (buildMetaLoop fields 0 [])
  | _ => Panic NumFieldOfNonStruct
  end.

(** var metaCache sync.Map, keyed by [reflect.Type]. *)
Abbreviation metaCache := (gmap (list StructField) (list fieldMeta)).

Section assignment.

(** Floating point is left abstract: the type of [float64] values,
    its zero, [strconv.ParseFloat(s, 64)] and the rounding that
    [SetFloat] applies when the field is a [float32]. *)
Variable float : Type.
Variable float_zero : float.
Variable ParseFloat : string → option float.
Variable round32 : float → float.

Inductive fieldVal : Type :=
| StrVal (s : string)
| IntVal (n : Z)
| FloatVal (f : float)
| BoolVal (b : bool)
| OpaqueVal.

(** A value of type [T]. *)
Inductive tval : Type :=
| MapVal (m : row)
| StructVal (fs : list fieldVal)
| OtherVal.

Definition zeroField (k : Kind) : fieldVal :=
  match k with
  | KString => StrVal ""
  | KInt | KInt64 | KInt32 => IntVal 0
  | KFloat32 | KFloat64 => FloatVal float_zero
  | KBool => BoolVal false
  | KOther => OpaqueVal
  end.

(** var zero T *)
Definition zero (T : rtype) : tval :=
  match T with
  | TMap => MapVal ∅
  | TStruct fields => StructVal (zeroField ∘ FieldKind <$> fields)
  | TNonStruct => OtherVal
  end.

(** int32(x): the low 32 bits, sign-extended. *)
Definition wrap32 (x : Z) : Z := ((x + 2 ^ 31) mod 2 ^ 32 - 2 ^ 31)%Z.

(** [reflect.Value.SetInt] stores [x] converted to the field's type. *)
Definition convInt (k : Kind) (x : Z) : Z :=
  match k with KInt32 => wrap32 x | _ => x end.

Definition convFloat (k : Kind) (x : float) : float :=
  match k with KFloat32 => round32 x | _ => x end.

(** [f := val.FieldByIndex(fm.index); f.SetXxx(x)]: a field reached
    through an unexported struct field cannot be set. *)
Definition setField (fields : list StructField) (val : list fieldVal)
           (i : nat) (x : fieldVal) : result (list fieldVal) :=
  match fields !! i with
  | Some f =>
      if Exported f then Ok (<[i := x]> val) else Panic SetUnexportedField
  | None => Panic (IndexOutOfRange i (length fields))
  end.

(** The body of [for _, fm := range metaAny.([]fieldMeta)]. *)
Definition assignField (fields : list StructField) (kv : row)
           (val : list fieldVal) (fm : fieldMeta) : result (list fieldVal) :=
  match kv !! name fm with
  | Some s =>
      match kind fm with
      | KString => setField fields val (index fm) (StrVal s)
      | KInt | KInt64 | KInt32 =>
          match strconv.ParseInt (strings.TrimSpace s) with
          | Some n => setField fields val (index fm) (IntVal (convInt (kind fm) n))
          | None => Ok val
          end
      | KFloat32 | KFloat64 =>
          match ParseFloat (strings.TrimSpace s) with
          | Some fl => setField fields val (index fm) (FloatVal (convFloat (kind fm) fl))
          | None => Ok val
          end
      | KBool =>
          setField fields val (index fm)
                   (BoolVal (String.eqb s "1" || strings.EqualFold s "true"))
      | KOther => Ok val
      end
  | None => Ok val
  end.

Fixpoint assignLoop (fields : list StructField) (kv : row)
         (metas : list fieldMeta) (val : list fieldVal) : result (list fieldVal) :=
  match metas with
  | [] => Ok val
  | fm :: metas' =>
      val' ← assignField fields kv val fm;
      assignLoop fields kv metas' val'
  end.

(** metaAny, _ := metaCache.Load(rt)
    if metaAny == nil { metaAny = buildMeta(rt); metaCache.Store(rt, metaAny) } *)
Definition loadMeta (rt : rtype) (cache : metaCache)
  : result (list fieldMeta) * metaCache :=
  match rt with
  | TStruct fields =>
      match cache !! fields with
      | Some metas => (Ok metas, cache)
      | None =>
          match buildMeta rt with
          | Ok metas => (Ok metas, <[fields := metas]> cache)
          | r => (r, cache)
          end
      end
  | _ => (buildMeta rt, cache)
  end.

(** func assign[T any](ptr *T, kv map[string]string) error
    The returned error is always nil: the outcome is the new [*ptr]
    or a panic, together with the cache as the call leaves it. *)
Definition assign (T : rtype) (ptr : tval) (kv : row) (cache : metaCache)
  : result tval * metaCache :=
  match T with
  | TMap => (Ok (MapVal kv), cache)
  | _ =>
      match loadMeta T cache with
      | (Ok metas, cache') =>
          match T, ptr with
          | TStruct fields, StructVal val =>
              (StructVal <$> assignLoop fields kv metas val, cache')
          | _, _ => (Ok ptr, cache')     (* not reached: [*ptr] has type [T] *)
          end
      | (Err e, cache') => (Err e, cache')
      | (Panic p, cache') => (Panic p, cache')
      end
  end.

(** for i, kv := range hits { m, err := toStrMap(kv); ...; assign(&out[i], m) } *)
Fixpoint sliceLoop (T : rtype) (hits : list value) (i : nat) (out : list tval)
         (cache : metaCache) : result (list tval) * metaCache :=
  match hits with
  | [] => (Ok out, cache)
  | kv :: hits' =>
      match toStrMap kv with
      | Ok m =>
          match out !! i with
          | Some cell =>
              match assign T cell m cache with
              | (Ok cell', cache') => sliceLoop T hits' (S i) (<[i := cell']> out) cache'
              | (Err e, cache') => (Err e, cache')
              | (Panic p, cache') => (Panic p, cache')
              end
          | None => (Panic (IndexOutOfRange i (length out)), cache)
          end
      | Err e => (Err e, cache)
      | Panic p => (Panic p, cache)
      end
  end.

(** func DecodeSlice[T any](raw any) ([]T, error) *)
Definition DecodeSlice (T : rtype) (raw : value) (cache : metaCache)
  : result (list tval) * metaCache :=
  match normalize raw with
  | Ok reply =>
      match extractHits reply with
      | Ok (total, hits) =>
          sliceLoop T hits 0 (replicate (Z.to_nat total) (zero T)) cache
      | Err e => (Err e, cache)
      | Panic p => (Panic p, cache)
      end
  | Err e => (Err e, cache)
  | Panic p => (Panic p, cache)
  end.

End assignment.

Arguments StrVal {float} s.
Arguments IntVal {float} n.
Arguments FloatVal {float} f.
Arguments BoolVal {float} b.
Arguments OpaqueVal {float}.
Arguments MapVal {float} m.
Arguments StructVal {float} fs.
Arguments OtherVal {float}.

End scan.

(** ** Package query: expressions, compiler and command builders *)

Module query.

(** *** Expressions (expr.go) *)

(** The operand [v any] of a predicate: the compiler only prints it
    with the [%v] verb; [AOther] is an operand of any other type,
    given by that rendering. *)
Inductive any : Type :=
| AString (s : string)
| AInt (n : Z)
| AInt64 (n : Z)
| AOther (sprint : string).

(** The [%v] verb, also [fmt.Fprint] of one operand. *)
Definition fmtV (v : any) : string :=
  match v with
  | AString s => s
  | AInt n => strconv.FormatInt n
  | AInt64 n => strconv.FormatInt n
  | AOther s => s
  end.

(** func toStr(v any) string *)
Definition toStr (v : any) : string :=
  match v with
  | AString t => t
  | AInt t => strconv.Itoa t
  | AInt64 t => strconv.FormatInt t
  | AOther t => t
  end.

(** The node types [eq], [in], [rng], [and], [or], [not], [matchAll],
    named after the functions that build them. *)
Inductive Expr : Type :=
| Eq (f : string) (v : any)
| In (f : string) (vs : list any)
| Range (f : string) (lo hi : any) (inc : bool)
| And (xs : list Expr)
| Or (xs : list Expr)
| Not (x : Expr)
| MatchAll.

(** func field(f string) string *)
Definition field (f : string) : string :=
  if strings.HasPrefix f "@" then f else "@" ++ f.

(** *** The compiler (compile.go) *)

(** A [*strings.Builder] is the text written so far. *)
Abbreviation Builder := string (only parsing).

Definition WriteByte (sb : Builder) (c : ascii) : Builder := sb ++ String c EmptyString.
Definition WriteString (sb : Builder) (s : string) : Builder := sb ++ s.

(** for i, v := range n.vs { if i > 0 { sb.WriteByte('|') }; fmt.Fprint(sb, v) } *)
Fixpoint inLoop (vs : list any) (i : nat) (sb : Builder) : Builder :=
  match vs with
  | [] => sb
  | v :: vs' =>
      let sb := if (0 <? i)%nat then WriteByte sb "|" else sb in
      inLoop vs' (S i) (WriteString sb (fmtV v))
  end.

Section group.

Variable compile : Expr → Builder → Builder.

(** for i, x := range xs { if i > 0 { sb.WriteString(sep) }; x.compile(sb) } *)
Fixpoint groupLoop (xs : list Expr) (i : nat) (sep : string) (sb : Builder) : Builder :=
  match xs with
  | [] => sb
  | x :: xs' =>
      let sb := if (0 <? i)%nat then WriteString sb sep else sb in
      groupLoop xs' (S i) sep (compile x sb)
  end.

(** func group(sb *strings.Builder, xs []Expr, sep string) *)
Definition group (sb : Builder) (xs : list Expr) (sep : string) : Builder :=
  let sb := WriteByte sb "(" in
  let sb := groupLoop xs 0 sep sb in
  WriteByte sb ")".

End group.

(** The method [compile(sb *strings.Builder)] of each node type. *)
Fixpoint compile (e : Expr) (sb : Builder) : Builder :=
  match e with
  | Eq f v =>                       (* "%s:{%v}" *)
      WriteString sb (field f ++ ":{" ++ fmtV v ++ "}")
  | In f vs =>
      let sb := WriteString sb (field f ++ ":{") in
      let sb := inLoop vs 0 sb in
      WriteByte sb "}"
  | Range f lo hi inc =>            (* "%s:%s%v %v%s" *)
      let '(left_, right_) := if inc then ("[", "]") else ("(", ")") in
      WriteString sb (field f ++ ":" ++ left_ ++ fmtV lo ++ " " ++ fmtV hi ++ right_)
  | And xs => group compile sb xs " "
  | Or xs => group compile sb xs "|"
  | Not x =>
      let sb := WriteByte sb "-" in
      let sb := WriteByte sb "(" in
      let sb := compile x sb in
      WriteByte sb ")"
  | MatchAll => WriteByte sb "*"
  end.

(** func Compile(e Expr) string *)
Definition Compile (e : Expr) : string := compile e EmptyString.

(** *** Group keys (group.go) *)

Record GroupKey : Type := { raw : string; alias : string }.

Definition By (f : string) : GroupKey :=
  let f := if negb (strings.HasPrefix f "@") then "@" ++ f else f in
  {| raw := f; alias := "" |}.

Definition ByExpr (expr : string) : GroupKey := {| raw := expr; alias := "" |}.

Definition As (g : GroupKey) (a : string) : GroupKey := {| raw := raw g; alias := a |}.

(** *** Builders (builder.go) *)

(** type Dir string; const ( Asc Dir = "ASC"; Desc Dir = "DESC" ) *)
Definition Asc : string := "ASC".
Definition Desc : string := "DESC".

(** [driver.Executor]: [Do] sends one argument vector and yields the
    reply or a failure. *)
Abbreviation Executor := (list string → result scan.value) (only parsing).

(** args = append(args, x, y, ...) *)
Definition append (args : list string) (xs : list string) : list string := args ++ xs.

(** The outcome of [Run], with the argument vectors handed to the
    executor on the way, in order. *)
Abbreviation run_outcome := (result (list scan.row) * list (list string))%type.

Module SearchBuilder.

Record t : Type :=
  { idx : string;
    where_ : option Expr;          (* nil when no filter was set *)
    returnFields : list string;
    sortField : string;
    dir : string;                  (* type Dir string *)
    offset : Z;
    limit : Z;
    withTotal : bool;
    executor : option Executor }.

(** func NewSearch(index string) *SearchBuilder *)
Definition NewSearch (index : string) : t :=
  {| idx := index; where_ := None; returnFields := []; sortField := "";
     dir := ""; offset := 0; limit := 10000; withTotal := false;
     executor := None |}.

Definition Where (b : t) (e : option Expr) : t :=
  {| idx := idx b; where_ := e; returnFields := returnFields b;
     sortField := sortField b; dir := dir b; offset := offset b;
     limit := limit b; withTotal := withTotal b; executor := executor b |}.

Definition Select (b : t) (fs : list string) : t :=
  {| idx := idx b; where_ := where_ b; returnFields := [] ++ fs;
     sortField := sortField b; dir := dir b; offset := offset b;
     limit := limit b; withTotal := withTotal b; executor := executor b |}.

Definition SortBy (b : t) (f d : string) : t :=
  {| idx := idx b; where_ := where_ b; returnFields := returnFields b;
     sortField := f; dir := d; offset := offset b;
     limit := limit b; withTotal := withTotal b; executor := executor b |}.

Definition Limit (b : t) (off lim : Z) : t :=
  {| idx := idx b; where_ := where_ b; returnFields := returnFields b;
     sortField := sortField b; dir := dir b; offset := off;
     limit := lim; withTotal := withTotal b; executor := executor b |}.

Definition WithTotal (b : t) : t :=
  {| idx := idx b; where_ := where_ b; returnFields := returnFields b;
     sortField := sortField b; dir := dir b; offset := offset b;
     limit := limit b; withTotal := true; executor := executor b |}.

Definition Using (b : t) (ex : option Executor) : t :=
  {| idx := idx b; where_ := where_ b; returnFields := returnFields b;
     sortField := sortField b; dir := dir b; offset := offset b;
     limit := limit b; withTotal := withTotal b; executor := ex |}.

(** func (b *SearchBuilder) RawArgs() ([]interface{}, error) *)
Definition RawArgs (b : t) : result (list string) :=
  let q :=
    match where_ b with
    | None => "*"
    | Some MatchAll => "*"
    | Some e => "(" ++ Compile e ++ ")"
    end in
  let args := ["FT.SEARCH"; idx b; q] in
  let args :=
    if (0 <? length (returnFields b))%nat then
      let args :=
        append args ["RETURN"; strconv.Itoa (Z.of_nat (length (returnFields b)))] in
      foldl (λ args f, append args [f]) args (returnFields b)
    else args in
  let args :=
    if negb (String.eqb (sortField b) "") then
      append args ["SORTBY"; sortField b; dir b]
    else args in
  let args := append args ["LIMIT"; strconv.Itoa (offset b); strconv.Itoa (limit b)] in
  Ok args.

(** func (b *SearchBuilder) Run(ctx context.Context) ([]map[string]string, error) *)
Definition Run (b : t) : run_outcome :=
  match executor b with
  | None => (Err "query: executor not set (call Using())", [])
  | Some ex =>
      match RawArgs b with
      | Ok args =>
          match ex args with
          | Ok raw => (scan.DecodeMaps raw, [args])
          | Err e => (Err e, [args])
          | Panic p => (Panic p, [args])
          end
      | Err e => (Err e, [])
      | Panic p => (Panic p, [])
      end
  end.

End SearchBuilder.

Module AggregateBuilder.

(** type reducer struct{ fn, field, alias string } *)
Record reducer : Type := { fn : string; field : string; alias : string }.

Record t : Type :=
  { idx : string;
    where_ : option Expr;
    groups : list GroupKey;
    reducers : list reducer;
    offset : Z;
    limit : Z;
    executor : option Executor }.

(** func NewAggregate(index string) *AggregateBuilder *)
Definition NewAggregate (index : string) : t :=
  {| idx := index; where_ := None; groups := []; reducers := [];
     offset := 0; limit := 10000; executor := None |}.

Definition Where (b : t) (e : option Expr) : t :=
  {| idx := idx b; where_ := e; groups := groups b; reducers := reducers b;
     offset := offset b; limit := limit b; executor := executor b |}.

Definition GroupBy (b : t) (keys : list GroupKey) : t :=
  {| idx := idx b; where_ := where_ b; groups := keys; reducers := reducers b;
     offset := offset b; limit := limit b; executor := executor b |}.

Definition Reduce (b : t) (fn_ field_ as_ : string) : t :=
  {| idx := idx b; where_ := where_ b; groups := groups b;
     reducers := reducers b ++ [{| fn := fn_; field := field_; alias := as_ |}];
     offset := offset b; limit := limit b; executor := executor b |}.

Definition Limit (b : t) (off lim : Z) : t :=
  {| idx := idx b; where_ := where_ b; groups := groups b; reducers := reducers b;
     offset := off; limit := lim; executor := executor b |}.

Definition Using (b : t) (ex : option Executor) : t :=
  {| idx := idx b; where_ := where_ b; groups := groups b; reducers := reducers b;
     offset := offset b; limit := limit b; executor := ex |}.

(** The body of [for _, r := range b.reducers]. *)
Definition reduceStep (args : list string) (r : reducer) : list string :=
  if strings.EqualFold (fn r) "COUNT" then
    append args ["REDUCE"; fn r; "0"; "AS"; alias r]
  else
    append args ["REDUCE"; fn r; "1"; "@" ++ field r; "AS"; alias r].

(** func (b *AggregateBuilder) RawArgs() ([]interface{}, error) *)
Definition RawArgs (b : t) : result (list string) :=
  let q :=
    match where_ b with
    | None => "*"
    | Some MatchAll => "*"
    | Some e => "(" ++ Compile e ++ ")"
    end in
  let args := ["FT.AGGREGATE"; idx b; q] in
  let args := append args ["GROUPBY"; strconv.Itoa (Z.of_nat (length (groups b)))] in
  let args := foldl (λ args g, append args [raw g]) args (groups b) in
  let args := foldl reduceStep args (reducers b) in
  let args := append args ["LIMIT"; strconv.Itoa (offset b); strconv.Itoa (limit b)] in
  Ok args.

(** func (b *AggregateBuilder) Run(ctx context.Context) ([]map[string]string, error) *)
Definition Run (b : t) : run_outcome :=
  match executor b with
  | None => (Err "query: executor not set (call Using())", [])
  | Some ex =>
      match RawArgs b with
      | Ok args =>
          match ex args with
          | Ok raw => (scan.DecodeMaps raw, [args])
          | Err e => (Err e, [args])
          | Panic p => (Panic p, [args])
          end
      | Err e => (Err e, [])
      | Panic p => (Panic p, [])
      end
  end.

End AggregateBuilder.

End query.

(** ** Package index: the schema of FT.CREATE *)

Module index.

(** switch strings.ToUpper(a) { case "NUMERIC", "TAG", "GEO", "VECTOR":
      fieldType = strings.ToUpper(a) } *)
Definition typeStep (fieldType a : string) : string :=
  let u := strings.ToUpper a in
  if String.eqb u "NUMERIC" || String.eqb u "TAG" || String.eqb u "GEO"
     || String.eqb u "VECTOR"
  then u else fieldType.

(** switch upper { case "SORTABLE", "NOINDEX", "NOSTEM": out = append(out, upper)
                   case "PK": out = append(out, "NOINDEX") } *)
Definition flagStep (out : list string) (a : string) : list string :=
  let upper := strings.ToUpper a in
  if String.eqb upper "SORTABLE" || String.eqb upper "NOINDEX"
     || String.eqb upper "NOSTEM"
  then (out ++ [upper])%list
  else if String.eqb upper "PK" then (out ++ ["NOINDEX"])%list
  else out.

(** The body of the loop over the fields of the struct type. *)
Definition fieldStep (out : list string) (f : scan.StructField) : result (list string) :=
  let tag := scan.Tag f in
  if String.eqb tag "" then Ok out
  else
    let parts := strings.Split tag "," in
    match parts with
    | part0 :: attrs =>
        let name := strings.TrimPrefix part0 "@" in
        let fieldType := foldl typeStep "TEXT" attrs in
        let out := (out ++ [name; fieldType])%list in
        Ok (foldl flagStep out attrs)
    | [] => Panic (IndexOutOfRange 0 0)
    end.

Fixpoint schemaLoop (fields : list scan.StructField) (out : list string)
  : result (list string) :=
  match fields with
  | [] => Ok out
  | f :: fields' => out' ← fieldStep out f; schemaLoop fields' out'
  end.

(** func BuildSchema(model any) []interface{}
    [model] is given by its type, a pointer already followed. *)
Definition BuildSchema (model : scan.rtype) : result (list string) :=
  match model with
  | scan.TStruct fields => schemaLoop fields []
  | _ => Panic NumFieldOfNonStruct
  end.

End index.

(** ** Package repository: options and the repository handles *)

Module repository.

Import query.

(** type optFunc struct { search, agg func(builder) }, one hook per builder kind;
    the only implementation of [Opt]; a nil hook is [None]. *)
Record optFunc : Type :=
  { search : option (SearchBuilder.t → SearchBuilder.t);
    agg : option (AggregateBuilder.t → AggregateBuilder.t) }.

(** func (o optFunc) applySearch(b *q.SearchBuilder) *)
Definition applySearch (o : optFunc) (b : SearchBuilder.t) : SearchBuilder.t :=
  match search o with
  | Some f => f b
  | None => b
  end.

(** func (o optFunc) applyAgg(b *q.AggregateBuilder) *)
Definition applyAgg (o : optFunc) (b : AggregateBuilder.t) : AggregateBuilder.t :=
  match agg o with
  | Some f => f b
  | None => b
  end.

Definition Select (fields : list string) : optFunc :=
  {| search := Some (λ b, SearchBuilder.Select b fields); agg := None |}.

Definition Limit (offset limit : Z) : optFunc :=
  {| search := Some (λ b, SearchBuilder.Limit b offset limit);
     agg := Some (λ b, AggregateBuilder.Limit b offset limit) |}.

Definition sortOpt (f dir : string) : optFunc :=
  {| search := Some (λ b, SearchBuilder.SortBy b f dir); agg := None |}.

Definition SortAsc (f : string) : optFunc := sortOpt f Asc.
Definition SortDesc (f : string) : optFunc := sortOpt f Desc.

Definition Group (keys : list GroupKey) : optFunc :=
  {| search := None; agg := Some (λ b, AggregateBuilder.GroupBy b keys) |}.

Definition Count (alias : string) : optFunc :=
  {| search := None; agg := Some (λ b, AggregateBuilder.Reduce b "COUNT" "" alias) |}.

Definition Sum (field alias : string) : optFunc :=
  {| search := None; agg := Some (λ b, AggregateBuilder.Reduce b "SUM" field alias) |}.

Definition Avg (field alias : string) : optFunc :=
  {| search := None; agg := Some (λ b, AggregateBuilder.Reduce b "AVG" field alias) |}.

(** type Repository struct { index string; exec driver.Executor } *)
Record Repository : Type :=
  { index : string; exec : option Executor }.

(** func New(index string, exec driver.Executor) *Repository *)
Definition New (index_ : string) (exec_ : option Executor) : Repository :=
  {| index := index_; exec := exec_ |}.

(** func (r *Repository) Search(ctx, where q.Expr, opts ...Opt) ([]map[string]string, error) *)
Definition Search (r : Repository) (where_ : option Expr) (opts : list optFunc)
  : run_outcome :=
  let sb := SearchBuilder.Using
              (SearchBuilder.Where (SearchBuilder.NewSearch (index r)) where_) (exec r) in
  let sb := foldl (λ sb opt, applySearch opt sb) sb opts in
  SearchBuilder.Run sb.

(** func (r *Repository) Aggregate(ctx, where q.Expr, opts ...Opt) ([]map[string]string, error) *)
Definition Aggregate (r : Repository) (where_ : option Expr) (opts : list optFunc)
  : run_outcome :=
  let ab := AggregateBuilder.Using
              (AggregateBuilder.Where (AggregateBuilder.NewAggregate (index r)) where_)
              (exec r) in
  let ab := foldl (λ ab opt, applyAgg opt ab) ab opts in
  AggregateBuilder.Run ab.

Section Repo.

Variable float : Type.
Variable float_zero : float.
Variable ParseFloat : string → option float.
Variable round32 : float → float.

(** func (r *Repo) Search(ctx, indexName string, where q.Expr, opts ...Opt) ([]any, error)
    for a [Repo] whose [exec] is bound to [ex]; the outcome comes with
    the argument vectors sent and the metadata cache as left. *)
Definition RepoSearch (ex : Executor) (indexName : string) (where_ : option Expr)
           (opts : list optFunc) (cache : scan.metaCache)
  : result (list (scan.tval float)) * list (list string) * scan.metaCache :=
  let sb := SearchBuilder.Using (SearchBuilder.NewSearch indexName) (Some ex) in
  let sb := match where_ with
            | Some e => SearchBuilder.Where sb (Some e)
            | None => sb
            end in
  let sb := foldl (λ sb o, applySearch o sb) sb opts in
  match SearchBuilder.RawArgs sb with
  | Ok raw =>
      match ex raw with
      | Ok resp =>
          let '(out, cache') :=
            scan.DecodeSlice float float_zero ParseFloat round32 scan.TNonStruct resp cache in
          (out, [raw], cache')
      | Err e => (Err e, [raw], cache)
      | Panic p => (Panic p, [raw], cache)
      end
  | Err e => (Err e, [], cache)
  | Panic p => (Panic p, [], cache)
  end.

End Repo.

(** func (r *Repo) Aggregate(ctx, indexName string, where q.Expr, groupBy []q.GroupKey,
      opts ...Opt) ([]map[string]string, error), for a bound [exec] *)
Definition RepoAggregate (ex : Executor) (indexName : string) (where_ : option Expr)
           (groupBy : list GroupKey) (opts : list optFunc) : run_outcome :=
  let ab := AggregateBuilder.GroupBy
              (AggregateBuilder.Using (AggregateBuilder.NewAggregate indexName) (Some ex))
              groupBy in
  let ab := match where_ with
            | Some e => AggregateBuilder.Where ab (Some e)
            | None => ab
            end in
  let ab := foldl (λ ab o, applyAgg o ab) ab opts in
  match AggregateBuilder.RawArgs ab with
  | Ok rawArgs =>
      match ex rawArgs with
      | Ok resp => (scan.DecodeMaps resp, [rawArgs])
      | Err e => (Err e, [rawArgs])
      | Panic p => (Panic p, [rawArgs])
      end
  | Err e => (Err e, [])
  | Panic p => (Panic p, [])
  end.

End repository.

(** ** Package driver: helpers around the executor *)

Module driver.

(** func toString(v interface{}) string *)
Definition toString (v : scan.value) : string :=
  match v with
  | scan.VString t => t
  | scan.VBytes t => t
  | t => scan.Sprint t
  end.

(** for i, a := range args { if i > 0 { sb.WriteByte(' ') }; sb.WriteString(toString(a)) } *)
Fixpoint stringifyLoop (args : list scan.value) (i : nat) (sb : string) : string :=
  match args with
  | [] => sb
  | a :: args' =>
      let sb := if (0 <? i)%nat then query.WriteByte sb " " else sb in
      stringifyLoop args' (S i) (query.WriteString sb (toString a))
  end.

(** func stringifyCmd(args []interface{}) string *)
Definition stringifyCmd (args : list scan.value) : string :=
  stringifyLoop args 0 EmptyString.

(** A failed type assertion [x.(T)] without the comma-ok form. *)
Inductive crash : Type :=
| InterfaceConversion (got want : string)
| Propagated (p : panic).

Inductive outcome (A : Type) : Type :=
| Returned (a : A)
| Failed (msg : string)
| Crashed (c : crash).
Arguments Returned {A} a.
Arguments Failed {A} msg.
Arguments Crashed {A} c.

(** for j, v := range vals { row[j] = toString(v) } *)
Fixpoint rowLoop (vals : list scan.value) (j : nat) (row : list string) : list string :=
  match vals with
  | [] => row
  | v :: vals' => rowLoop vals' (S j) (<[j := toString v]> row)
  end.

(** for i, r := range rowsRaw { vals := r.([]interface{}); ...; rows[i] = row } *)
Fixpoint rowsLoop (rowsRaw : list scan.value) (i : nat) (rows : list (list string))
  : outcome (list (list string)) :=
  match rowsRaw with
  | [] => Returned rows
  | r :: rowsRaw' =>
      match r with
      | scan.VArr vals =>
          let row := rowLoop vals 0 (replicate (length vals) EmptyString) in
          rowsLoop rowsRaw' (S i) (<[i := row]> rows)
      | _ => Crashed (InterfaceConversion (scan.typeName r) "[]interface {}")
      end
  end.

(** func (rc *RedisearchConn) CursorRead(ctx, index string, cursor uint64, count int)
      ([][]string, uint64, error)
    [do] is [rc.Do]; the outcome comes with the argument vectors sent. *)
Definition CursorRead (do : list scan.value → result scan.value)
           (index : string) (cursor count : Z)
  : outcome (list (list string) * Z) * list (list scan.value) :=
  if (cursor =? 0)%Z then (Failed "driver: cursor id must be > 0", [])
  else
    let args := [scan.VString "FT.CURSOR"; scan.VString "READ"; scan.VString index;
                 scan.VOther "uint64" (strconv.FormatInt cursor);
                 scan.VString "COUNT";
                 scan.VOther "int" (strconv.Itoa count)] in
    match do args with
    | Err e => (Failed e, [args])
    | Panic p => (Crashed (Propagated p), [args])
    | Ok raw =>
        match raw with
        | scan.VArr [reply0; reply1] =>
            match reply0 with
            | scan.VArr rowsRaw =>
                match reply1 with
                | scan.VInt64 newCursor =>
                    match rowsLoop rowsRaw 0 (replicate (length rowsRaw) []) with
                    | Returned rows => (Returned (rows, (newCursor mod 2 ^ 64)%Z), [args])
                    | Failed e => (Failed e, [args])
                    | Crashed c => (Crashed c, [args])
                    end
                | _ => (Crashed (InterfaceConversion (scan.typeName reply1) "int64"), [args])
                end
            | _ =>
                (Crashed (InterfaceConversion (scan.typeName reply0) "[]interface {}"),
                 [args])
            end
        | _ => (Failed "driver: unexpected CURSOR READ reply shape", [args])
        end
    end.

End driver.

(** ** Package internal: slice helpers (sliceutil.go) *)

Module internal.

Local Open Scope list_scope.

Section slices.

(** [T comparable], usable as a map key. *)
Context {T : Type} `{Countable T}.







(** func Reduce[T any, R any](xs []T, acc R, f func(R, T) R) R *)
Definition Reduce {R} (xs : list T) (acc : R) (f : R → T → R) : R :=
  foldl f acc xs.


(** for _, x := range xs { if _, ok := seen[x]; !ok { seen[x] = struct{}{}; out = append(out, x) } } *)
Fixpoint uniqueLoop (xs : list T) (seen : gset T) (out : list T) : list T :=
  match xs with
  | [] => out
  | x :: xs' =>
      if decide (x ∈ seen) then uniqueLoop xs' seen out
      else uniqueLoop xs' ({[ x ]} ∪ seen) (out ++ [x])
  end.

(** func Unique[T comparable](xs []T) []T *)
Definition Unique (xs : list T) : list T := uniqueLoop xs ∅ [].





(** for i := 0; i < len(xs); i += n { end := min(i+n, len(xs)); out = append(out, xs[i:end]) }
    with [fuel] bounding the number of iterations. *)
Fixpoint chunkLoop (fuel : nat) (xs : list T) (n i : nat) (out : list (list T))
  : list (list T) :=
  match fuel with
  | O => out
  | S fuel' =>
      if decide (i < length xs) then
        let end_ := i + n in
        let end_ := if decide (length xs < end_) then length xs else end_ in
        chunkLoop fuel' xs n (i + n) (out ++ [take (end_ - i) (drop i xs)])
      else out
  end.

(** func Chunk[T any](xs []T, n int) [][]T *)
Definition Chunk (xs : list T) (n : Z) : list (list T) :=
  if (n <=? 0)%Z then []
  else chunkLoop (length xs) xs (Z.to_nat n) 0 [].

(** for i, x := range xs { out[len(xs)-1-i] = x } *)
Fixpoint reverseLoop (len : nat) (xs : list T) (i : nat) (out : list T) : list T :=
  match xs with
  | [] => out
  | x :: xs' => reverseLoop len xs' (S i) (<[len - 1 - i := x]> out)
  end.

(** func Reverse[T any](xs []T) []T
    [zero] is the zero value of [T]. *)
Definition Reverse (zero : T) (xs : list T) : list T :=
  reverseLoop (length xs) xs 0 (replicate (length xs) zero).

(** for lo < hi { xs[lo], xs[hi] = xs[hi], xs[lo]; lo++; hi-- }
    on the slice as it stands, with [fuel] bounding the iterations. *)
Fixpoint reverseInPlaceLoop (fuel : nat) (xs : list T) (lo hi : Z) : list T :=
  match fuel with
  | O => xs
  | S fuel' =>
      if (lo <? hi)%Z then
        match xs !! Z.to_nat lo, xs !! Z.to_nat hi with
        | Some a, Some b =>
            reverseInPlaceLoop fuel'
              (<[Z.to_nat hi := a]> (<[Z.to_nat lo := b]> xs)) (lo + 1) (hi - 1)
        | _, _ => xs
        end
      else xs
  end.

(** func ReverseInPlace[T any](xs []T): the slice after the call. *)
Definition ReverseInPlace (xs : list T) : list T :=
  reverseInPlaceLoop (length xs) xs 0 (Z.of_nat (length xs) - 1).

End slices.

Section ordered.

(** [constraints.Ordered]: a type with its [<]. *)
Context {T : Type} (lt : T → T → bool).

(** func Min[T constraints.Ordered](xs []T) T; [None] is the panic
    "sliceutil.Min: empty slice". *)
Definition Min (xs : list T) : option T :=
  match xs with
  | [] => None
  | x0 :: rest => Some (foldl (λ m x, if lt x m then x else m) x0 rest)
  end.

(** func Max[T constraints.Ordered](xs []T) T; [None] is the panic
    "sliceutil.Max: empty slice". *)
Definition Max (xs : list T) : option T :=
  match xs with
  | [] => None
  | x0 :: rest => Some (foldl (λ m x, if lt m x then x else m) x0 rest)
  end.

End ordered.

(** Addition in a signed integer type of [bits] bits. *)
Definition wrapAdd (bits : Z) (a b : Z) : Z :=
  ((a + b + 2 ^ (bits - 1)) mod 2 ^ bits - 2 ^ (bits - 1))%Z.

(** func Sum[T constraints.Integer | constraints.Float](xs []T) T
    at a signed integer type of [bits] bits. *)
Definition Sum (bits : Z) (xs : list Z) : Z :=
  foldl (wrapAdd bits) 0%Z xs.

End internal.

(** ** Vocabulary of the statements *)

Import scan query.

(** Structural induction on expressions, with the children of [And] and
    [Or] covered by [Forall]. *)
Section Expr_nested_ind.

Variable P : Expr → Prop.
Hypothesis HEq : ∀ f v, P (Eq f v).
Hypothesis HIn : ∀ f vs, P (In f vs).
Hypothesis HRange : ∀ f lo hi inc, P (Range f lo hi inc).
Hypothesis HAnd : ∀ xs, Forall P xs → P (And xs).
Hypothesis HOr : ∀ xs, Forall P xs → P (Or xs).
Hypothesis HNot : ∀ x, P x → P (Not x).
Hypothesis HMatchAll : P MatchAll.

Fixpoint Expr_nested_ind (e : Expr) : P e :=
  let children :=
    fix children (xs : list Expr) : Forall P xs :=
      match xs with
      | [] => @List.Forall_nil _ P
      | x :: xs' => @List.Forall_cons _ P x xs' (Expr_nested_ind x) (children xs')
      end in
  match e with
  | Eq f v => HEq f v
  | In f vs => HIn f vs
  | Range f lo hi inc => HRange f lo hi inc
  | And xs => HAnd xs (children xs)
  | Or xs => HOr xs (children xs)
  | Not x => HNot x (Expr_nested_ind x)
  | MatchAll => HMatchAll
  end.

End Expr_nested_ind.

(** The compiled children of a combinator, joined by its separator. *)
Definition joined (sep : string) (xs : list Expr) : string :=
  String.concat sep (Compile <$> xs).

(** The argument at the query-string position of an argument vector. *)
Definition queryArg (r : result (list string)) : option string :=
  match r with
  | Ok args => args !! 2
  | _ => None
  end.

(** The group of arguments one reducer stands for. *)
Definition reducerGroup (r : AggregateBuilder.reducer) : list string :=
  if strings.EqualFold (AggregateBuilder.fn r) "COUNT"
  then ["REDUCE"; AggregateBuilder.fn r; "0"; "AS"; AggregateBuilder.alias r]
  else ["REDUCE"; AggregateBuilder.fn r; "1"; "@" ++ AggregateBuilder.field r;
        "AS"; AggregateBuilder.alias r].

(** The query-string argument as both [RawArgs] methods compute it. *)
Definition queryText (w : option Expr) : string :=
  match w with
  | None => "*"
  | Some MatchAll => "*"
  | Some e => "(" ++ Compile e ++ ")"
  end.

(** The arguments of FT.AGGREGATE before the reducers. *)
Definition aggHead (b : AggregateBuilder.t) : list string :=
  ["FT.AGGREGATE"; AggregateBuilder.idx b; queryText (AggregateBuilder.where_ b);
   "GROUPBY"; strconv.Itoa (Z.of_nat (length (AggregateBuilder.groups b)))]
  ++ (raw <$> AggregateBuilder.groups b).

(** The closing LIMIT clause. *)
Definition limitClause (off lim : Z) : list string :=
  ["LIMIT"; strconv.Itoa off; strconv.Itoa lim].

(** A sequence of [Reduce] calls, each given by its three arguments. *)
Definition reduceCalls (b : AggregateBuilder.t) (calls : list AggregateBuilder.reducer)
  : AggregateBuilder.t :=
  foldl (λ b c, AggregateBuilder.Reduce b (AggregateBuilder.fn c)
                  (AggregateBuilder.field c) (AggregateBuilder.alias c)) b calls.

(** The complete key/value pairs of a flat alternating sequence. *)
Fixpoint pairs (t : list value) : list (value * value) :=
  match t with
  | k :: v :: t' => (k, v) :: pairs t'
  | _ => []
  end.

(** The stringified keys of the complete pairs. *)
Definition pairKeys (t : list value) : list string := (λ kv, scan.toStr kv.1) <$> pairs t.

(** Every cached entry is what [buildMeta] computes for its type. *)
Definition cache_sound (cache : metaCache) : Prop :=
  ∀ fields metas, cache !! fields = Some metas → metas = buildMetaLoop fields 0 [].

(** The two replies of the round-trip examples. *)
Definition legacyReply : value :=
  VArr [VInt64 2;
        VString "doc:1"; VArr [VString "status"; VString "PENDING"];
        VString "doc:2"; VArr [VString "status"; VString "SHIPPED"]].

Definition keyedReply : value :=
  VMapStr {[ "results" :=
    VArr [VMapStr {[ "extra_attributes" := VMapStr {[ "qty" := VString "3" ]} ]}] ]}.

(** Writing into a builder only appends to it. *)
Definition appends (e : Expr) : Prop := ∀ sb, compile e sb = sb ++ Compile e.

(** The row built from key/value pairs, a later pair replacing an
    earlier one with the same stringified key. *)
Definition insertPairs (m : row) (ps : list (value * value)) : row :=
  foldl (λ m kv, <[scan.toStr kv.1 := scan.toStr kv.2]> m) m ps.

(** The complete pairs with key and value stringified, last pair first. *)
Definition lastFirst (t : list value) : list (string * string) :=
  rev ((λ kv, (scan.toStr kv.1, scan.toStr kv.2)) <$> pairs t).

(** The struct type with the single field [tag], of kind [k]. *)
Definition oneField (tag : string) (k : Kind) : rtype :=
  TStruct [{| Tag := tag; Exported := true; FieldKind := k |}].

(** The kinds handled by the integer case of [assign]. *)
Definition intKind (k : Kind) : bool :=
  match k with KInt | KInt64 | KInt32 => true | _ => false end.

(** Every tagged field of the struct type is exported. *)
Definition settable (fields : list StructField) : Prop :=
  Forall (λ f, Tag f ≠ "" → Exported f = true) fields.

(** The optional RETURN clause of FT.SEARCH. *)
Definition returnClause (fs : list string) : list string :=
  match fs with
  | [] => []
  | _ => "RETURN" :: strconv.Itoa (Z.of_nat (length fs)) :: fs
  end.

(** The optional SORTBY clause of FT.SEARCH. *)
Definition sortClause (f d : string) : list string :=
  if String.eqb f "" then [] else ["SORTBY"; f; d].

(** The options the repository package offers, as calls of its
    constructors. *)
Inductive optCall : Type :=
| OSelect (fields : list string)
| OLimit (offset limit : Z)
| OSortAsc (f : string)
| OSortDesc (f : string)
| OGroup (keys : list GroupKey)
| OCount (alias : string)
| OSum (field alias : string)
| OAvg (field alias : string).

Definition toOpt (c : optCall) : repository.optFunc :=
  match c with
  | OSelect fs => repository.Select fs
  | OLimit off lim => repository.Limit off lim
  | OSortAsc f => repository.SortAsc f
  | OSortDesc f => repository.SortDesc f
  | OGroup keys => repository.Group keys
  | OCount a => repository.Count a
  | OSum f a => repository.Sum f a
  | OAvg f a => repository.Avg f a
  end.

Definition pickSelect (c : optCall) : option (list string) :=
  match c with OSelect fs => Some fs | _ => None end.

Definition pickSort (c : optCall) : option (string * string) :=
  match c with
  | OSortAsc f => Some (f, "ASC")
  | OSortDesc f => Some (f, "DESC")
  | _ => None
  end.

Definition pickLimit (c : optCall) : option (Z * Z) :=
  match c with OLimit off lim => Some (off, lim) | _ => None end.

Definition pickGroup (c : optCall) : option (list GroupKey) :=
  match c with OGroup keys => Some keys | _ => None end.

Definition pickReducer (c : optCall) : option AggregateBuilder.reducer :=
  match c with
  | OCount a =>
      Some {| AggregateBuilder.fn := "COUNT"; AggregateBuilder.field := "";
              AggregateBuilder.alias := a |}
  | OSum f a =>
      Some {| AggregateBuilder.fn := "SUM"; AggregateBuilder.field := f;
              AggregateBuilder.alias := a |}
  | OAvg f a =>
      Some {| AggregateBuilder.fn := "AVG"; AggregateBuilder.field := f;
              AggregateBuilder.alias := a |}
  | _ => None
  end.

(** The last option of one kind in a list of calls, [d] when there is
    none. *)
Definition lastOf {A} (pick : optCall → option A) (d : A) (calls : list optCall) : A :=
  default d (last (omap pick calls)).

(** The search command a list of option calls leads to. *)
Definition searchCommand (idx : string) (w : option Expr) (calls : list optCall)
  : list string :=
  (["FT.SEARCH"; idx; queryText w]
   ++ returnClause (lastOf pickSelect [] calls)
   ++ sortClause (lastOf pickSort ("", "") calls).1 (lastOf pickSort ("", "") calls).2
   ++ limitClause (lastOf pickLimit (0, 10000)%Z calls).1
                  (lastOf pickLimit (0, 10000)%Z calls).2)%list.

(** The aggregate command a list of option calls leads to. *)
Definition aggregateCommand (idx : string) (w : option Expr) (calls : list optCall)
  : list string :=
  (["FT.AGGREGATE"; idx; queryText w; "GROUPBY";
    strconv.Itoa (Z.of_nat (length (lastOf pickGroup [] calls)))]
   ++ (raw <$> lastOf pickGroup [] calls)
   ++ concat (reducerGroup <$> omap pickReducer calls)
   ++ limitClause (lastOf pickLimit (0, 10000)%Z calls).1
                  (lastOf pickLimit (0, 10000)%Z calls).2)%list.

(** A legacy array body: identifier, payload, identifier, payload, ... *)
Definition flatPairs (ps : list (value * value)) : list value :=
  concat ((λ p, [p.1; p.2]) <$> ps).

(** The reply is of the array form with leading count [count]. *)
Definition arrayReply (raw : value) (count : Z) (rest : list value) : Prop :=
  raw = VArr (VInt64 count :: rest) ∨ ∃ cmd, raw = VSliceCmd cmd (VInt64 count :: rest).

(** The field name a [redisorm] tag declares. *)
Definition tagName (tag : string) : string :=
  strings.TrimPrefix (hd "" (strings.Split tag ",")) "@".

(** What [assign] stores for the text [s] in a field of kind [k], if
    anything. *)
Definition coerce {float} (ParseFloat : string → option float) (round32 : float → float)
           (k : Kind) (s : string) : option (fieldVal float) :=
  match k with
  | KString => Some (StrVal s)
  | KInt | KInt64 | KInt32 =>
      IntVal ∘ convInt k <$> strconv.ParseInt (strings.TrimSpace s)
  | KFloat32 | KFloat64 =>
      FloatVal ∘ convFloat float round32 k <$> ParseFloat (strings.TrimSpace s)
  | KBool => Some (BoolVal (String.eqb s "1" || strings.EqualFold s "true"))
  | KOther => None
  end.

(** The value of one struct field after [assign]: the coerced text of
    the row entry named by the field's tag, the old value when the
    field has no tag, the row no such entry, or the text no reading. *)
Definition assigned {float} (ParseFloat : string → option float) (round32 : float → float)
           (kv : row) (f : StructField) (old : fieldVal float) : fieldVal float :=
  match (if String.eqb (Tag f) "" then None else kv !! tagName (Tag f))
        ≫= coerce ParseFloat round32 (FieldKind f) with
  | Some x => x
  | None => old
  end.

(** The type keyword of a schema entry: the last type attribute, TEXT
    when there is none. *)
Definition isTypeWord (u : string) : bool :=
  String.eqb u "NUMERIC" || String.eqb u "TAG" || String.eqb u "GEO"
  || String.eqb u "VECTOR".

Definition typeOf (attrs : list string) : string :=
  default "TEXT" (last (filter (λ u, isTypeWord u = true) (strings.ToUpper <$> attrs))).

(** The flag an attribute contributes to a schema entry, if any. *)
Definition flagOf (a : string) : option string :=
  let u := strings.ToUpper a in
  if String.eqb u "SORTABLE" || String.eqb u "NOINDEX" || String.eqb u "NOSTEM"
  then Some u
  else if String.eqb u "PK" then Some "NOINDEX"
  else None.

(** The arguments one struct field contributes to SCHEMA. *)
Definition schemaEntry (f : StructField) : list string :=
  if String.eqb (Tag f) "" then []
  else
    let attrs := tl (strings.Split (Tag f) ",") in
    tagName (Tag f) :: typeOf attrs :: omap flagOf attrs.

(** The command [CursorRead] sends. *)
Definition cursorCommand (index : string) (cursor count : Z) : list value :=
  [VString "FT.CURSOR"; VString "READ"; VString index;
   VOther "uint64" (strconv.FormatInt cursor);
   VString "COUNT"; VOther "int" (strconv.Itoa count)].


(** ** The library functions on examples *)

Example TrimSpace_ascii : strings.TrimSpace "  a b  " = "a b".
Proof. reflexivity. Qed.

(** U+00A0 (C2 A0) and U+2003 (E2 80 83) are white space; a stray
    continuation byte is not. *)
Example TrimSpace_unicode :
  strings.TrimSpace (String "194" (String "160" (" 42" ++
                       String "226" (String "128" (String "131" "")))))
  = "42"
  ∧ strings.TrimSpace (String "160" "x ") = String "160" "x".
Proof. split; reflexivity. Qed.

Example ParseInt_examples :
  strconv.ParseInt "7" = Some 7%Z
  ∧ strconv.ParseInt "-0012" = Some (-12)%Z
  ∧ strconv.ParseInt "+5" = Some 5%Z
  ∧ strconv.ParseInt "abc" = None
  ∧ strconv.ParseInt "" = None
  ∧ strconv.ParseInt "-" = None
  ∧ strconv.ParseInt "1_000" = None
  ∧ strconv.ParseInt " 7" = None
  ∧ strconv.ParseInt "9223372036854775807" = Some (2 ^ 63 - 1)%Z
  ∧ strconv.ParseInt "9223372036854775808" = None
  ∧ strconv.ParseInt "-9223372036854775808" = Some (- 2 ^ 63)%Z.
Proof. repeat split; reflexivity. Qed.

Example Itoa_examples :
  strconv.Itoa 10000 = "10000" ∧ strconv.Itoa 0 = "0" ∧ strconv.Itoa (-3) = "-3".
Proof. repeat split; reflexivity. Qed.

Example EqualFold_examples :
  strings.EqualFold "count" "COUNT" = true
  ∧ strings.EqualFold "CoUnT" "COUNT" = true
  ∧ strings.EqualFold "COUNTS" "COUNT" = false
  ∧ strings.EqualFold "TRUE" "true" = true.
Proof. repeat split; reflexivity. Qed.

Example Compile_example :
  Compile (And [Eq "status" (AString "PENDING");
                In "warehouse_id" [AInt 12; AInt 15; AInt 18];
                Not (Eq "is_deleted" (AInt 1));
                Or [MatchAll; Range "@price" (AInt 10) (AInt 100) true]])
  = "(@status:{PENDING} @warehouse_id:{12|15|18} -(@is_deleted:{1}) (*|@price:[10 100]))".
Proof. reflexivity. Qed.

Example Search_RawArgs_example :
  SearchBuilder.RawArgs
    (SearchBuilder.Limit
       (SearchBuilder.SortBy
          (SearchBuilder.Select
             (SearchBuilder.Where (SearchBuilder.NewSearch "order_idx") (Some MatchAll))
             ["order_id"; "qty"])
          "promise_ts" "ASC") 0 1)
  = Ok ["FT.SEARCH"; "order_idx"; "*"; "RETURN"; "2"; "order_id"; "qty";
        "SORTBY"; "promise_ts"; "ASC"; "LIMIT"; "0"; "1"].
Proof. reflexivity. Qed.

(** ** Facts about strings *)

Lemma append_nil_l (a : string) : "" ++ a = a.
Proof. reflexivity. Qed.

Lemma append_cons (ch : ascii) (a b : string) : String ch a ++ b = String ch (a ++ b).
Proof. reflexivity. Qed.

Lemma append_assoc (a b c : string) : (a ++ b) ++ c = a ++ (b ++ c).
Proof.
  induction a as [|ch a IH]; [done|].
  by rewrite !append_cons, IH.
Qed.

Lemma append_nil_r (a : string) : a ++ "" = a.
Proof.
  induction a as [|ch a IH]; [done|].
  by rewrite append_cons, IH.
Qed.

Lemma append_length (a b : string) :
  String.length (a ++ b) = String.length a + String.length b.
Proof.
  induction a as [|ch a IH]; [done|].
  rewrite append_cons. simpl. by rewrite IH.
Qed.

Create Rewrite HintDb str.
#[local] Hint Rewrite append_assoc append_nil_r append_nil_l append_cons : str.

(** Both sides as right-nested appends, literals pushed inward. *)
Ltac str_norm :=
  unfold WriteString, WriteByte; autorewrite with str; try reflexivity.

(** ** The compiler *)

Section compiler.

Lemma inLoop_appends vs : ∀ i sb, inLoop vs i sb = sb ++ inLoop vs i "".
Proof.
  induction vs as [|v vs IH]; intros i sb; simpl.
  - by rewrite append_nil_r.
  - rewrite IH. rewrite (IH _ (WriteString _ _)).
    destruct (0 <? i)%nat; str_norm.
Qed.

Lemma groupLoop_appends sep xs :
  Forall appends xs →
  ∀ i sb, groupLoop compile xs i sep sb = sb ++ groupLoop compile xs i sep "".
Proof.
  induction 1 as [|x xs Hx _ IH]; intros i sb; simpl.
  - by rewrite append_nil_r.
  - rewrite IH. rewrite (IH _ (compile x _)).
    rewrite (Hx (if (0 <? i)%nat then _ else _)).
    rewrite (Hx (if (0 <? i)%nat then WriteString "" sep else "")).
    destruct (0 <? i)%nat; str_norm.
Qed.

Lemma group_appends sep xs :
  Forall appends xs → ∀ sb, group compile sb xs sep = sb ++ group compile "" xs sep.
Proof.
  intros H sb. unfold group.
  rewrite (groupLoop_appends _ _ H 0 (WriteByte sb _)).
  rewrite (groupLoop_appends _ _ H 0 (WriteByte "" _)).
  str_norm.
Qed.

Lemma compile_appends e : appends e.
Proof.
  induction e using Expr_nested_ind; intros sb; unfold Compile; simpl.
  - str_norm.
  - rewrite inLoop_appends. rewrite (inLoop_appends _ _ (WriteString "" _)).
    str_norm.
  - destruct inc; str_norm.
  - by apply group_appends.
  - by apply group_appends.
  - rewrite IHe. rewrite (IHe (WriteByte _ _)). str_norm.
  - str_norm.
Qed.

Lemma all_append xs : Forall appends xs.
Proof. apply Forall_forall. intros. apply compile_appends. Qed.

(** The loop of [group] after the first child: each further child is
    preceded by the separator. *)
Lemma groupLoop_tail sep xs :
  ∀ i, groupLoop compile xs (S i) sep ""
       = String.concat "" ((λ x, sep ++ Compile x) <$> xs).
Proof.
  induction xs as [|x xs IH]; intros i; simpl; [done|].
  rewrite (groupLoop_appends _ _ (all_append xs)), IH, compile_appends.
  destruct xs; simpl; str_norm.
Qed.

Lemma concat_sep_cons sep x xs :
  String.concat sep (Compile <$> (x :: xs))
  = Compile x ++ String.concat "" ((λ y, sep ++ Compile y) <$> xs).
Proof.
  revert x. induction xs as [|y ys IH]; intros x.
  - simpl. by rewrite append_nil_r.
  - change (Compile x ++ sep ++ String.concat sep (Compile <$> (y :: ys))
            = Compile x ++ String.concat "" ((λ y, sep ++ Compile y) <$> (y :: ys))).
    rewrite IH. simpl. destruct ys; simpl; str_norm.
Qed.

Lemma Compile_group sep xs :
  group compile "" xs sep = "(" ++ joined sep xs ++ ")".
Proof.
  unfold group, joined.
  rewrite (groupLoop_appends _ _ (all_append xs)).
  destruct xs as [|x xs]; [done|].
  rewrite concat_sep_cons. simpl.
  rewrite (groupLoop_appends _ _ (all_append xs)), groupLoop_tail, compile_appends.
  str_norm.
Qed.

End compiler.

Lemma Compile_And xs : Compile (And xs) = "(" ++ joined " " xs ++ ")".
Proof. apply Compile_group. Qed.

Lemma Compile_Or xs : Compile (Or xs) = "(" ++ joined "|" xs ++ ")".
Proof. apply Compile_group. Qed.

Lemma Compile_Not x : Compile (Not x) = "-(" ++ Compile x ++ ")".
Proof. unfold Compile. simpl. rewrite compile_appends. str_norm. Qed.

Lemma field_cases f :
  field f = match f with String "@" _ => f | _ => "@" ++ f end.
Proof.
  unfold field, strings.HasPrefix. destruct f as [|c r]; [done|].
  simpl. destruct (ascii_dec "@" c) as [<-|Hne].
  - by destruct r.
  - by destruct c as [[] [] [] [] [] [] [] []].
Qed.

Lemma field_marked f : strings.HasPrefix (field f) "@" = true.
Proof.
  unfold field. destruct (strings.HasPrefix f "@") eqn:E; [done|].
  unfold strings.HasPrefix. simpl. by destruct f.
Qed.

Lemma field_idempotent f : field (field f) = field f.
Proof. unfold field at 1. by rewrite field_marked. Qed.

(** C6. For all expressions [a] and [b], [Compile (And [a; b])] is
    ["(" ++ Compile a ++ " " ++ Compile b ++ ")"], [Or] is the same with
    ["|"] as separator, and [Compile (Not x)] is ["-(" ++ Compile x ++ ")"].
    Combinators of any arity wrap their separately compiled children in
    one group, so nesting composes recursively; a nested [And]/[Or]
    keeps its own group and is never flattened into its parent. *)
Theorem Compile_combinators (a b c x : Expr) (xs : list Expr) :
  Compile (And [a; b]) = "(" ++ Compile a ++ " " ++ Compile b ++ ")"
  ∧ Compile (Or [a; b]) = "(" ++ Compile a ++ "|" ++ Compile b ++ ")"
  ∧ Compile (Not x) = "-(" ++ Compile x ++ ")"
  ∧ Compile (And xs) = "(" ++ joined " " xs ++ ")"
  ∧ Compile (Or xs) = "(" ++ joined "|" xs ++ ")"
  ∧ Compile (And [And [a; b]; c])
    = "((" ++ Compile a ++ " " ++ Compile b ++ ") " ++ Compile c ++ ")"
  ∧ Compile (Or [Or [a; b]; c])
    = "((" ++ Compile a ++ "|" ++ Compile b ++ ")|" ++ Compile c ++ ")"
  ∧ Compile (And [And [a; b]; c]) ≠ Compile (And [a; b; c])
  ∧ Compile (Or [Or [a; b]; c]) ≠ Compile (Or [a; b; c]).
Proof.
  repeat split.
  - rewrite Compile_And. unfold joined. simpl. str_norm.
  - rewrite Compile_Or. unfold joined. simpl. str_norm.
  - apply Compile_Not.
  - apply Compile_And.
  - apply Compile_Or.
  - rewrite Compile_And. unfold joined. simpl. rewrite Compile_And.
    unfold joined. simpl. str_norm.
  - rewrite Compile_Or. unfold joined. simpl. rewrite Compile_Or.
    unfold joined. simpl. str_norm.
  - intros H. apply (f_equal String.length) in H. revert H.
    rewrite !Compile_And. unfold joined. simpl. rewrite Compile_And.
    unfold joined. simpl. autorewrite with str. simpl.
    rewrite !append_length. simpl. rewrite !append_length. simpl.
    rewrite !append_length. simpl. lia.
  - intros H. apply (f_equal String.length) in H. revert H.
    rewrite !Compile_Or. unfold joined. simpl. rewrite Compile_Or.
    unfold joined. simpl. autorewrite with str. simpl.
    rewrite !append_length. simpl. rewrite !append_length. simpl.
    rewrite !append_length. simpl. lia.
Qed.

(** C7. For every field name [f] and scalar value [v],
    [Compile (Eq f v)] is the field reference, then [":{"], the value as
    printed, then ["}"]; the reference is [f] itself when [f] already
    starts with ["@"] and ["@" ++ f] otherwise, and normalising a
    reference twice changes nothing. *)
Theorem Compile_Eq (f : string) (v : any) (s : string) (n : Z) :
  Compile (Eq f v) = field f ++ ":{" ++ fmtV v ++ "}"
  ∧ field f = match f with String "@" _ => f | _ => "@" ++ f end
  ∧ field (field f) = field f
  ∧ fmtV (AString s) = s
  ∧ fmtV (AInt n) = strconv.FormatInt n
  ∧ Compile (Eq "status" (AString "PENDING")) = "@status:{PENDING}"
  ∧ Compile (Eq "@status" (AString "PENDING")) = "@status:{PENDING}"
  ∧ Compile (Eq "qty" (AInt 3)) = "@qty:{3}".
Proof.
  repeat split.
  - apply field_cases.
  - apply field_idempotent.
Qed.

(** ** The builders *)

Section builders.

Lemma foldl_append_each {A} (g : A → string) xs : ∀ args,
  foldl (λ args x, query.append args [g x]) args xs = (args ++ (g <$> xs))%list.
Proof.
  induction xs as [|x xs IH]; intros args; simpl.
  - by rewrite app_nil_r.
  - rewrite IH. unfold query.append. by rewrite <- app_assoc.
Qed.

Lemma reduceStep_group args r :
  AggregateBuilder.reduceStep args r = (args ++ reducerGroup r)%list.
Proof.
  unfold AggregateBuilder.reduceStep, reducerGroup, query.append.
  by destruct (strings.EqualFold _ _).
Qed.

Lemma foldl_reduceStep rs : ∀ args,
  foldl AggregateBuilder.reduceStep args rs
  = (args ++ concat (reducerGroup <$> rs))%list.
Proof.
  induction rs as [|r rs IH]; intros args; simpl.
  - by rewrite app_nil_r.
  - by rewrite IH, reduceStep_group, <- app_assoc.
Qed.

Lemma Search_RawArgs_form b :
  ∃ rest, SearchBuilder.RawArgs b
          = Ok ("FT.SEARCH" :: SearchBuilder.idx b
                  :: queryText (SearchBuilder.where_ b) :: rest).
Proof.
  unfold SearchBuilder.RawArgs, query.append.
  rewrite (foldl_append_each id).
  destruct (0 <? _)%nat, (negb _); simpl; eauto.
Qed.

Lemma Agg_RawArgs_form b :
  AggregateBuilder.RawArgs b
  = Ok (aggHead b ++ concat (reducerGroup <$> AggregateBuilder.reducers b)
          ++ limitClause (AggregateBuilder.offset b) (AggregateBuilder.limit b))%list.
Proof.
  unfold AggregateBuilder.RawArgs, aggHead, limitClause.
  rewrite foldl_reduceStep, (foldl_append_each raw).
  unfold query.append, queryText. f_equal. by rewrite <- !app_assoc.
Qed.

Lemma reduceCalls_reducers calls : ∀ b,
  AggregateBuilder.reducers (reduceCalls b calls)
  = (AggregateBuilder.reducers b ++ calls)%list
  ∧ aggHead (reduceCalls b calls) = aggHead b
  ∧ AggregateBuilder.offset (reduceCalls b calls) = AggregateBuilder.offset b
  ∧ AggregateBuilder.limit (reduceCalls b calls) = AggregateBuilder.limit b.
Proof.
  unfold reduceCalls.
  induction calls as [|c calls IH]; intros b; simpl.
  - by rewrite app_nil_r.
  - destruct (IH (AggregateBuilder.Reduce b (AggregateBuilder.fn c)
                    (AggregateBuilder.field c) (AggregateBuilder.alias c)))
      as (-> & -> & -> & ->).
    simpl. rewrite <- app_assoc. by destruct c.
Qed.

Lemma queryArg_Search b :
  queryArg (SearchBuilder.RawArgs b) = Some (queryText (SearchBuilder.where_ b)).
Proof. by destruct (Search_RawArgs_form b) as [rest ->]. Qed.

Lemma queryArg_Agg b :
  queryArg (AggregateBuilder.RawArgs b) = Some (queryText (AggregateBuilder.where_ b)).
Proof. by rewrite Agg_RawArgs_form. Qed.

Lemma queryText_default w :
  w = None ∨ w = Some MatchAll → queryText w = "*".
Proof. by intros [-> | ->]. Qed.

Lemma queryText_wrapped e :
  e ≠ MatchAll → queryText (Some e) = "(" ++ Compile e ++ ")".
Proof. by destruct e. Qed.

End builders.

(** C4. Each reducer whose function name is COUNT, in any letter case,
    serialises to the five arguments REDUCE fn 0 AS alias, every other
    reducer to the six arguments REDUCE fn 1 @field AS alias, and after
    any sequence of Reduce calls the argument vector holds the reducer
    groups, those of earlier calls first, in the order of the calls,
    between the GROUPBY clause and LIMIT. *)
Theorem RawArgs_reducers
  (b : AggregateBuilder.t) (calls : list AggregateBuilder.reducer)
  (r : AggregateBuilder.reducer) (f al : string) :
  AggregateBuilder.RawArgs (reduceCalls b calls)
  = Ok (aggHead b
          ++ concat (reducerGroup <$> (AggregateBuilder.reducers b ++ calls))
          ++ limitClause (AggregateBuilder.offset b) (AggregateBuilder.limit b))%list
  ∧ length (reducerGroup r)
    = (if strings.EqualFold (AggregateBuilder.fn r) "COUNT" then 5 else 6)
  ∧ reducerGroup {| AggregateBuilder.fn := "COUNT"; AggregateBuilder.field := f;
                    AggregateBuilder.alias := al |}
    = ["REDUCE"; "COUNT"; "0"; "AS"; al]
  ∧ reducerGroup {| AggregateBuilder.fn := "Count"; AggregateBuilder.field := f;
                    AggregateBuilder.alias := al |}
    = ["REDUCE"; "Count"; "0"; "AS"; al]
  ∧ reducerGroup {| AggregateBuilder.fn := "SUM"; AggregateBuilder.field := f;
                    AggregateBuilder.alias := al |}
    = ["REDUCE"; "SUM"; "1"; "@" ++ f; "AS"; al]
  ∧ AggregateBuilder.RawArgs
      (AggregateBuilder.Reduce
         (AggregateBuilder.Reduce (AggregateBuilder.NewAggregate "order_idx")
            "COUNT" "" "orders")
         "SUM" "qty" "total_qty")
    = Ok ["FT.AGGREGATE"; "order_idx"; "*"; "GROUPBY"; "0";
          "REDUCE"; "COUNT"; "0"; "AS"; "orders";
          "REDUCE"; "SUM"; "1"; "@qty"; "AS"; "total_qty";
          "LIMIT"; "0"; "10000"].
Proof.
  repeat split.
  - rewrite Agg_RawArgs_form.
    by destruct (reduceCalls_reducers calls b) as (-> & -> & -> & ->).
  - unfold reducerGroup. by destruct (strings.EqualFold _ _).
Qed.

(** C5. For both builders the query-string argument of the argument
    vector is ["*"] when no filter was set or the filter is the MatchAll
    sentinel, and otherwise the compiled filter inside one outer pair of
    parentheses. *)
Theorem RawArgs_query_string
  (sb : SearchBuilder.t) (ab : AggregateBuilder.t) (e : Expr) :
  (SearchBuilder.where_ sb = None ∨ SearchBuilder.where_ sb = Some MatchAll →
   queryArg (SearchBuilder.RawArgs sb) = Some "*")
  ∧ (SearchBuilder.where_ sb = Some e → e ≠ MatchAll →
     queryArg (SearchBuilder.RawArgs sb) = Some ("(" ++ Compile e ++ ")"))
  ∧ (AggregateBuilder.where_ ab = None ∨ AggregateBuilder.where_ ab = Some MatchAll →
     queryArg (AggregateBuilder.RawArgs ab) = Some "*")
  ∧ (AggregateBuilder.where_ ab = Some e → e ≠ MatchAll →
     queryArg (AggregateBuilder.RawArgs ab) = Some ("(" ++ Compile e ++ ")")).
Proof.
  rewrite queryArg_Search, queryArg_Agg. repeat split.
  - intros H. by rewrite queryText_default.
  - intros -> H. by rewrite queryText_wrapped.
  - intros H. by rewrite queryText_default.
  - intros -> H. by rewrite queryText_wrapped.
Qed.

Lemma RawArgs_query_string_witness :
  queryArg (SearchBuilder.RawArgs (SearchBuilder.NewSearch "order_idx")) = Some "*"
  ∧ queryArg (SearchBuilder.RawArgs
                (SearchBuilder.Where (SearchBuilder.NewSearch "order_idx")
                   (Some (Eq "status" (AString "PENDING")))))
    = Some "(@status:{PENDING})"
  ∧ queryArg (AggregateBuilder.RawArgs
                (AggregateBuilder.Where (AggregateBuilder.NewAggregate "order_idx")
                   (Some MatchAll))) = Some "*"
  ∧ queryArg (AggregateBuilder.RawArgs
                (AggregateBuilder.Where (AggregateBuilder.NewAggregate "order_idx")
                   (Some (Not MatchAll))))
    = Some "(-(*))".
Proof.
  split; [|split; [|split]].
  - apply (RawArgs_query_string (SearchBuilder.NewSearch "order_idx")
             (AggregateBuilder.NewAggregate "order_idx") MatchAll).
    by left.
  - apply (RawArgs_query_string
             (SearchBuilder.Where (SearchBuilder.NewSearch "order_idx")
                (Some (Eq "status" (AString "PENDING"))))
             (AggregateBuilder.NewAggregate "order_idx")
             (Eq "status" (AString "PENDING"))); [reflexivity | discriminate].
  - apply (RawArgs_query_string (SearchBuilder.NewSearch "order_idx")
             (AggregateBuilder.Where (AggregateBuilder.NewAggregate "order_idx")
                (Some MatchAll)) MatchAll).
    by right.
  - apply (RawArgs_query_string (SearchBuilder.NewSearch "order_idx")
             (AggregateBuilder.Where (AggregateBuilder.NewAggregate "order_idx")
                (Some (Not MatchAll))) (Not MatchAll)); [reflexivity | discriminate].
Defined.

Lemma Run_with_executor_Search (b : SearchBuilder.t) ex :
  SearchBuilder.executor b = Some ex →
  ∃ args, SearchBuilder.RawArgs b = Ok args
          ∧ (SearchBuilder.Run b).2 = [args]
          ∧ (SearchBuilder.Run b).1 = (ex args ≫= DecodeMaps).
Proof.
  intros H. unfold SearchBuilder.Run. rewrite H.
  destruct (Search_RawArgs_form b) as [rest ->].
  eexists. split; [done|]. by destruct (ex _).
Qed.

Lemma Run_with_executor_Agg (b : AggregateBuilder.t) ex :
  AggregateBuilder.executor b = Some ex →
  ∃ args, AggregateBuilder.RawArgs b = Ok args
          ∧ (AggregateBuilder.Run b).2 = [args]
          ∧ (AggregateBuilder.Run b).1 = (ex args ≫= DecodeMaps).
Proof.
  intros H. unfold AggregateBuilder.Run. rewrite H, Agg_RawArgs_form.
  eexists. split; [done|]. by destruct (ex _).
Qed.



(** ** The decoder *)

Section decoder_loops.

Local Open Scope list_scope.
Local Open Scope nat_scope.

Lemma bind_Ok_r {A} (r : result A) : r ≫= Ok = r.
Proof. by destruct r. Qed.

Lemma mapM_Ok_length {A B} (f : A → result B) l : ∀ k,
  mapM f l = Ok k → length k = length l.
Proof.
  induction l as [|x l IH]; intros k; simpl.
  - by intros [= <-].
  - destruct (f x); simpl; try done.
    destruct (mapM f l) as [k'| |]; simpl; try done.
    intros [= <-]. simpl. by rewrite (IH k').
Qed.

(** The write loop of [DecodeMaps] never leaves [out], and is a
    monadic map over the hits. *)
Lemma rowsLoop_mapM hits : ∀ i out,
  i + length hits = length out →
  rowsLoop hits i out = ms ← mapM toStrMap hits; Ok (take i out ++ ms).
Proof.
  induction hits as [|kv hits IH]; intros i out Hlen; simpl in *.
  - rewrite app_nil_r, take_ge by lia. done.
  - destruct (toStrMap kv) as [m| |]; simpl; try done.
    destruct (decide (i < length out)); [|lia].
    rewrite IH by (rewrite length_insert; lia).
    destruct (mapM toStrMap hits) as [ms| |]; simpl; try done.
    f_equal. rewrite (take_S_r _ _ m) by (apply list_lookup_insert_eq; lia).
    rewrite take_insert_ge by lia. by rewrite <- app_assoc.
Qed.

Lemma resultsLoop_mapM rs : ∀ i hits,
  i + length rs = length hits →
  resultsLoop rs i hits
  = ps ← mapM (λ r, hitPayload <$> hitMap r) rs; Ok (take i hits ++ ps).
Proof.
  induction rs as [|r rs IH]; intros i hits Hlen; simpl in *.
  - rewrite app_nil_r, take_ge by lia. done.
  - destruct (hitMap r) as [h| |]; simpl; try done.
    rewrite IH by (rewrite length_insert; lia).
    destruct (mapM _ rs) as [ps| |]; simpl; try done.
    f_equal. rewrite (take_S_r _ _ (hitPayload h)) by (apply list_lookup_insert_eq; lia).
    rewrite take_insert_ge by lia. by rewrite <- app_assoc.
Qed.

Lemma pairs_lookup j : ∀ t,
  pairs t !! j
  = match t !! (j * 2), t !! (j * 2 + 1) with
    | Some k, Some v => Some (k, v)
    | _, _ => None
    end.
Proof.
  induction j as [|j IH]; intros [|k [|v t]]; simpl; done.
Qed.

Lemma pairs_length t : length (pairs t) = length t / 2.
Proof.
  induction t as [t IH] using (induction_ltof1 _ (@length value)).
  unfold ltof in IH. destruct t as [|k [|v t]]; try done.
  cbn [pairs length]. rewrite IH by (simpl; lia).
  replace (S (S (length t))) with (1 * 2 + length t) by lia.
  rewrite Nat.div_add_l by lia. lia.
Qed.

(** The read loop of the array form: it succeeds with the payloads of
    the pairs [i], ..., [i + n - 1] when these are all present, and
    otherwise panics at the first index past the end. *)
Lemma arrayLoop_pairs c rest n : ∀ i hits,
  i + n = length hits →
  i ≤ length (pairs rest) →
  arrayLoop (c :: rest) n i hits
  = if decide (i + n ≤ length (pairs rest))
    then Ok (take i hits ++ (snd <$> take n (drop i (pairs rest))))
    else Panic (IndexOutOfRange (length (pairs rest) * 2 + 2) (S (length rest))).
Proof.
  induction n as [|n IH]; intros i hits Hlen Hi; simpl.
  - rewrite decide_True by lia. rewrite app_nil_r, take_ge by lia. done.
  - replace (i * 2 + 2) with (S (i * 2 + 1)) by lia. simpl.
    destruct (decide (i < length (pairs rest))) as [Hlt|Hge].
    + destruct (lookup_lt_is_Some_2 _ _ Hlt) as [[k v] Hkv].
      pose proof Hkv as Hkv'. rewrite pairs_lookup in Hkv'.
      destruct (rest !! (i * 2)); [|done].
      destruct (rest !! (i * 2 + 1)) as [v'|]; [|done].
      injection Hkv' as -> ->.
      rewrite IH by (rewrite ?length_insert; lia).
      destruct (decide (S i + n ≤ _)), (decide (i + S n ≤ _)); try lia; [|done].
      f_equal. rewrite (take_S_r _ _ v) by (apply list_lookup_insert_eq; lia).
      rewrite take_insert_ge by lia.
      rewrite (drop_S _ _ _ Hkv). simpl. rewrite <- app_assoc. reflexivity.
    + assert (i = length (pairs rest)) as Hi' by lia.
      destruct (rest !! (i * 2 + 1)) as [v|] eqn:Hv.
      * exfalso. apply lookup_lt_Some in Hv.
        assert (is_Some (rest !! (i * 2))) as [k Hk] by (apply lookup_lt_is_Some; lia).
        assert (is_Some (pairs rest !! i)) as Hsome.
        { rewrite pairs_lookup, Hk.
          destruct (rest !! (i * 2 + 1)) eqn:E; [done|].
          apply lookup_ge_None in E. lia. }
        apply lookup_lt_is_Some in Hsome. lia.
      * rewrite decide_False by lia. do 2 f_equal. lia.
Qed.

End decoder_loops.

Section decoder.

Local Open Scope list_scope.
Local Open Scope nat_scope.
Local Arguments Nat.div : simpl never.

(** The keyed-map form: every entry of [results] becomes one row, or
    the call fails; it never panics. *)
Lemma DecodeMaps_keyed (top : gmap string value) :
  DecodeMaps (VMapStr top)
  = match top !! "results"%string with
    | Some (VArr rs) =>
        hits ← mapM (λ r, hitPayload <$> hitMap r) rs; mapM toStrMap hits
    | _ => Err "scan: missing results array"
    end.
Proof.
  unfold DecodeMaps. simpl.
  destruct (top !! "results"%string) as [[]|]; try done.
  rewrite resultsLoop_mapM by (rewrite length_replicate; lia).
  destruct (mapM _ xs) as [ps| |] eqn:E; simpl; try done.
  rewrite rowsLoop_mapM by (rewrite length_replicate; lia).
  simpl. apply bind_Ok_r.
Qed.

(** The array form with an integer count: the first [count] payloads
    become rows when at least [count] pairs follow the count element;
    a larger or negative count panics; pairs beyond [count] are left
    out. *)
Lemma DecodeMaps_legacy (count : Z) (rest : list value) :
  DecodeMaps (VArr (VInt64 count :: rest))
  = if (count <? 0)%Z then Panic MakesliceLen
    else if decide (Z.to_nat count ≤ length rest / 2)
         then mapM toStrMap (snd <$> take (Z.to_nat count) (pairs rest))
         else Panic (IndexOutOfRange (length rest / 2 * 2 + 2) (S (length rest))).
Proof.
  unfold DecodeMaps. simpl. destruct (count <? 0)%Z eqn:Hneg; [done|].
  rewrite arrayLoop_pairs by (rewrite ?length_replicate; lia).
  rewrite pairs_length. simpl.
  destruct (decide (Z.to_nat count ≤ length rest / 2)) as [Hle|Hgt]; [|done].
  simpl. rewrite rowsLoop_mapM.
  - simpl. apply bind_Ok_r.
  - rewrite length_replicate, length_fmap, length_take, drop_0, pairs_length. lia.
Qed.

Lemma DecodeMaps_keyed_total top rows rs :
  top !! "results"%string = Some (VArr rs) →
  DecodeMaps (VMapStr top) = Ok rows → length rows = length rs.
Proof.
  intros Htop. rewrite DecodeMaps_keyed, Htop.
  destruct (mapM _ rs) as [hits| |] eqn:E; simpl; try done.
  intros H. apply mapM_Ok_length in H, E. lia.
Qed.

Lemma DecodeMaps_keyed_no_panic top : is_Panic (DecodeMaps (VMapStr top)) = false.
Proof.
  rewrite DecodeMaps_keyed. destruct (top !! "results"%string) as [[]|]; try done.
  assert (∀ hits, is_Panic (mapM toStrMap hits) = false) as Hrows.
  { induction hits as [|h hits IH]; simpl; [done|].
    destruct h; simpl; try done; by destruct (mapM toStrMap hits). }
  assert (is_Panic (mapM (λ r, hitPayload <$> hitMap r) xs) = false) as Hhits.
  { induction xs as [|r rs IH]; simpl; [done|].
    destruct r; simpl; try done; by destruct (mapM _ rs). }
  destruct (mapM _ xs); simpl; done.
Qed.

End decoder.

(** C1, refuted on the array form: [DecodeMaps] takes the leading count
    as the number of rows.  With a count above the number of
    identifier/payload pairs that follow, or a negative count, it
    panics; with a count below it, the pairs beyond the count are left
    out of the rows without an error. *)
Theorem DecodeMaps_count_mismatch :
  DecodeMaps (VArr [VInt64 2; VString "doc:1";
                    VArr [VString "status"; VString "PENDING"]])
  = Panic (IndexOutOfRange 4 3)
  ∧ DecodeMaps (VArr [VInt64 1]) = Panic (IndexOutOfRange 2 1)
  ∧ DecodeMaps (VArr [VInt64 (-1)]) = Panic MakesliceLen
  ∧ DecodeMaps (VArr [VInt64 1;
                      VString "doc:1"; VArr [VString "status"; VString "PENDING"];
                      VString "doc:2"; VArr [VString "status"; VString "SHIPPED"]])
    = Ok [ {[ "status" := "PENDING" ]} ].
Proof. repeat split; vm_compute; reflexivity. Qed.

(** C2. [DecodeMaps] turns the legacy array reply
    [2, "doc:1", ["status","PENDING"], "doc:2", ["status","SHIPPED"]]
    into the rows {"status":"PENDING"} and {"status":"SHIPPED"}, in that
    order, and the keyed-map reply
    {"results":[{"extra_attributes":{"qty":"3"}}]} into the one row
    {"qty":"3"}. *)
Theorem DecodeMaps_round_trip :
  DecodeMaps legacyReply
  = Ok [ {[ "status" := "PENDING" ]}; {[ "status" := "SHIPPED" ]} ]
  ∧ DecodeMaps keyedReply = Ok [ {[ "qty" := "3" ]} ].
Proof. split; vm_compute; reflexivity. Qed.

(** C3, as the code has it: an array reply whose first element is not a
    64-bit integer fails with the error "scan: first array element is
    not int64", whether it arrives as a slice or inside a command
    result; an empty array is not an error and decodes to no rows. *)
Theorem DecodeMaps_bad_count (x : value) (rest : list value) (cmd : string) :
  (∀ n, x ≠ VInt64 n) →
  DecodeMaps (VArr (x :: rest)) = Err "scan: first array element is not int64"
  ∧ DecodeMaps (VSliceCmd cmd (x :: rest)) = Err "scan: first array element is not int64"
  ∧ DecodeMaps (VArr []) = Ok []
  ∧ DecodeMaps (VSliceCmd cmd []) = Ok [].
Proof.
  intros Hx. repeat split; try done.
  - destruct x; try done. by destruct (Hx n).
  - destruct x; try done. by destruct (Hx n).
Qed.

Lemma DecodeMaps_bad_count_witness :
  DecodeMaps (VArr [VString "2"; VString "doc:1"; VArr []])
  = Err "scan: first array element is not int64".
Proof.
  apply (DecodeMaps_bad_count (VString "2") [VString "doc:1"; VArr []] "").
  intros n. discriminate.
Defined.

(** C3, counterexample: the empty array, which has no count element,
    decodes successfully to an empty row collection. *)
Lemma DecodeMaps_empty_array_succeeds :
  DecodeMaps (VArr []) = Ok [] ∧ ¬ ∃ msg, DecodeMaps (VArr []) = Err msg.
Proof. split; [reflexivity | intros [msg H]; discriminate H]. Qed.

(** ** Key/value payloads *)

Section payload.

Local Open Scope list_scope.
Local Open Scope nat_scope.
Local Arguments Nat.div : simpl never.

(** The index loop of [toStrMap] visits exactly the complete pairs. *)
Lemma kvLoop_pairs fuel : ∀ pre rest m,
  length rest ≤ fuel →
  kvLoop (pre ++ rest) fuel (length pre) m = insertPairs m (pairs rest).
Proof.
  induction fuel as [|fuel IH]; intros pre rest m Hf.
  - destruct rest; [done | simpl in Hf; lia].
  - simpl. destruct rest as [|k [|v rest]].
    + rewrite decide_False by (rewrite app_nil_r; lia). done.
    + rewrite decide_False by (rewrite length_app; simpl; lia). done.
    + rewrite decide_True by (rewrite length_app; simpl; lia).
      rewrite !lookup_app_r by lia.
      replace (length pre - length pre) with 0 by lia.
      replace (length pre + 1 - length pre) with 1 by lia. simpl.
      replace (length pre + 2) with (length (pre ++ [k; v]))
        by (rewrite length_app; simpl; lia).
      replace (pre ++ k :: v :: rest) with ((pre ++ [k; v]) ++ rest)
        by (by rewrite <- app_assoc).
      apply IH. simpl in Hf. lia.
Qed.

Lemma toStrMap_pairs t : toStrMap (VArr t) = Ok (insertPairs ∅ (pairs t)).
Proof. simpl. f_equal. apply (kvLoop_pairs (length t) [] t ∅). lia. Qed.

Lemma insertPairs_dom ps : ∀ m,
  dom (insertPairs m ps) = dom m ∪ list_to_set ((λ kv, scan.toStr kv.1) <$> ps).
Proof.
  unfold insertPairs.
  induction ps as [|[k v] ps IH]; intros m; simpl.
  - set_solver.
  - rewrite IH, dom_insert_L. set_solver.
Qed.

Lemma insertPairs_size_le ps : ∀ m, size (insertPairs m ps) ≤ size m + length ps.
Proof.
  unfold insertPairs.
  induction ps as [|[k v] ps IH]; intros m; simpl; [lia|].
  etrans; [apply IH|]. rewrite map_size_insert.
  destruct (m !! _); simpl; lia.
Qed.

Lemma insertPairs_size_NoDup ps : ∀ m,
  NoDup ((λ kv, scan.toStr kv.1) <$> ps) →
  (∀ k, k ∈ (λ kv, scan.toStr kv.1) <$> ps → m !! k = None) →
  size (insertPairs m ps) = size m + length ps.
Proof.
  unfold insertPairs.
  induction ps as [|[k v] ps IH]; intros m Hnd Hfresh; simpl in *; [lia|].
  apply NoDup_cons in Hnd as [Hk Hnd].
  rewrite IH; [|done|].
  - rewrite map_size_insert_None; [lia|]. apply Hfresh. left.
  - intros k' Hk'. rewrite lookup_insert_ne.
    + apply Hfresh. by right.
    + intros Heq. apply Hk. by rewrite Heq.
Qed.

(** Of two pairs with the same stringified key the later one stays. *)
Lemma insertPairs_last_wins ps :
  insertPairs ∅ ps
  = list_to_map (rev ((λ kv, (scan.toStr kv.1, scan.toStr kv.2)) <$> ps)).
Proof.
  unfold insertPairs. induction ps as [|p ps IH] using rev_ind; [done|].
  by rewrite foldl_snoc, fmap_app, rev_app_distr, IH.
Qed.

Lemma pairs_snoc_even xs : ∀ x,
  Nat.even (length xs) = true → pairs (xs ++ [x]) = pairs xs.
Proof.
  induction xs as [xs IH] using (induction_ltof1 _ (@length value)).
  unfold ltof in IH. intros x Hev.
  destruct xs as [|k [|v xs]]; try done.
  cbn [app pairs]. f_equal. apply IH; [simpl; lia | done].
Qed.

End payload.

(** C10, as the code has it: decoding a flat alternating payload always
    succeeds; the row has one entry for each distinct stringified key
    of the complete pairs, the last pair with a key giving its value,
    so at most floor(len/2) entries, and exactly floor(len/2) when
    these keys are pairwise distinct; an unpaired trailing element
    changes nothing. *)
Theorem toStrMap_flat_payload (xs : list value) (x : value) :
  ∃ m : row,
    toStrMap (VArr xs) = Ok m
    ∧ m = list_to_map (lastFirst xs)
    ∧ dom m = list_to_set (pairKeys xs)
    ∧ (size m ≤ length xs / 2)%nat
    ∧ (NoDup (pairKeys xs) → size m = (length xs / 2)%nat)
    ∧ (Nat.even (length xs) = true → toStrMap (VArr (xs ++ [x])%list) = Ok m).
Proof.
  exists (insertPairs ∅ (pairs xs)). split; [apply toStrMap_pairs|].
  split; [apply insertPairs_last_wins|].
  split; [|split; [|split]].
  - rewrite insertPairs_dom. unfold pairKeys. set_solver.
  - rewrite <- pairs_length. etrans; [apply insertPairs_size_le|].
    rewrite map_size_empty. lia.
  - intros Hnd. rewrite <- pairs_length.
    rewrite insertPairs_size_NoDup; [by rewrite map_size_empty|done|done].
  - intros Hev. by rewrite toStrMap_pairs, pairs_snoc_even.
Qed.

Lemma toStrMap_flat_payload_witness :
  ∃ m : row,
    toStrMap (VArr [VString "a"; VString "1"; VString "b"; VString "2"]) = Ok m
    ∧ size m = 2%nat
    ∧ toStrMap (VArr [VString "a"; VString "1"; VString "b"; VString "2";
                      VString "z"]) = Ok m.
Proof.
  destruct (toStrMap_flat_payload
              [VString "a"; VString "1"; VString "b"; VString "2"] (VString "z"))
    as (m & Hm & _ & _ & _ & Hsize & Hodd).
  exists m. split; [exact Hm|]. split.
  - apply Hsize. refine (@bool_decide_unpack _ (NoDup_dec _) _). vm_compute. exact I.
  - apply Hodd. reflexivity.
Defined.

(** C10, counterexample: two pairs with the same key leave one entry,
    not floor(5/2) = 2. *)
Lemma toStrMap_duplicate_key :
  ∃ m : row,
    toStrMap (VArr [VString "a"; VString "1"; VString "a"; VString "2";
                    VString "x"]) = Ok m
    ∧ size m = 1%nat
    ∧ size m ≠ (length [VString "a"; VString "1"; VString "a"; VString "2";
                         VString "x"] / 2)%nat.
Proof.
  eexists. split; [reflexivity|]. split; vm_compute; [reflexivity | discriminate].
Qed.

(** ** Typed assignment *)

Section typed_assignment.

Local Open Scope list_scope.
Local Open Scope nat_scope.

Variable float : Type.
Variable float_zero : float.
Variable ParseFloat : string → option float.
Variable round32 : float → float.

(** The metadata [assign] works with is that of the struct type,
    whether it comes from the cache or is built on the spot. *)
Lemma loadMeta_struct fields cache :
  cache_sound cache →
  (loadMeta (TStruct fields) cache).1 = Ok (buildMetaLoop fields 0 [])
  ∧ cache_sound (loadMeta (TStruct fields) cache).2.
Proof.
  intros Hc. unfold loadMeta. destruct (cache !! fields) as [metas|] eqn:E; simpl.
  - split; [|done]. f_equal. by apply Hc.
  - split; [done|]. intros fs ms. rewrite lookup_insert.
    case_decide as Heq; [|by apply Hc]. intros [= <-]. by rewrite Heq.
Qed.

(** Where the metadata entries of a struct type point. *)
Lemma buildMetaLoop_index fields : ∀ i out fm,
  fm ∈ buildMetaLoop fields i out →
  fm ∈ out
  ∨ ∃ f, i ≤ index fm ∧ fields !! (index fm - i) = Some f
         ∧ Tag f ≠ ""%string ∧ kind fm = FieldKind f.
Proof.
  induction fields as [|f fields IH]; intros i out fm; simpl; [by left|].
  destruct (String.eqb (Tag f) "") eqn:E; intros Hin.
  - destruct (IH _ _ _ Hin) as [?|(f' & Hi & Hf' & ?)]; [by left|right].
    exists f'. split; [lia|]. split; [|done].
    by replace (index fm - i) with (S (index fm - S i)) by lia.
  - destruct (IH _ _ _ Hin) as [Hout|(f' & Hi & Hf' & ?)].
    + apply elem_of_app in Hout as [?|Hfm]; [by left|right].
      apply list_elem_of_singleton in Hfm as ->. simpl. exists f.
      split; [lia|]. replace (i - i) with 0 by lia.
      split; [done|]. split; [|done]. by apply String.eqb_neq in E.
    + right. exists f'. split; [lia|]. split; [|done].
      by replace (index fm - i) with (S (index fm - S i)) by lia.
Qed.

Lemma assignField_settable fields kv val fm f :
  fields !! index fm = Some f → Exported f = true →
  ∃ val', assignField float ParseFloat round32 fields kv val fm = Ok val'.
Proof.
  intros Hf Hex. unfold assignField, setField. rewrite Hf, Hex.
  destruct (kv !! name fm); [|eauto].
  destruct (kind fm); eauto;
    try (destruct (strconv.ParseInt _); eauto);
    try (destruct (ParseFloat _); eauto).
Qed.

Lemma assignLoop_settable fields kv metas : ∀ val,
  (∀ fm, fm ∈ metas → ∃ f, fields !! index fm = Some f ∧ Exported f = true) →
  ∃ val', assignLoop float ParseFloat round32 fields kv metas val = Ok val'.
Proof.
  induction metas as [|fm metas IH]; intros val Hm; simpl; [eauto|].
  destruct (Hm fm) as (f & Hf & Hex); [by left|].
  destruct (assignField_settable fields kv val fm f Hf Hex) as [val' ->]. simpl.
  apply IH. intros fm' Hin. apply Hm. by right.
Qed.

(** Assignment into a struct whose tagged fields are all exported
    yields a value, whatever the row holds, and keeps the cache sound. *)
Lemma assign_struct_total fields val kv cache :
  settable fields → cache_sound cache →
  (∃ val', (assign float ParseFloat round32 (TStruct fields) (StructVal val) kv cache).1
           = Ok (StructVal val'))
  ∧ cache_sound
      (assign float ParseFloat round32 (TStruct fields) (StructVal val) kv cache).2.
Proof.
  intros Hset Hc. unfold assign.
  destruct (loadMeta_struct fields cache Hc) as [Hm Hc'].
  destruct (loadMeta (TStruct fields) cache) as [r cache']. simpl in Hm, Hc'.
  subst r. simpl. split; [|done].
  destruct (assignLoop_settable fields kv (buildMetaLoop fields 0 []) val) as [val' ->];
    [|eauto].
  intros fm Hin.
  destruct (buildMetaLoop_index _ _ _ _ Hin) as [Hnil|(f & _ & Hf & Htag & _)].
  - by apply elem_of_nil in Hnil.
  - rewrite Nat.sub_0_r in Hf. exists f. split; [done|].
    unfold settable in Hset. rewrite Forall_forall in Hset.
    apply Hset; [|done]. by apply list_elem_of_lookup_2 in Hf.
Qed.


End typed_assignment.

(** ** DecodeSlice *)

Section decode_slice.

Variable float : Type.
Variable float_zero : float.
Variable ParseFloat : string → option float.
Variable round32 : float → float.

(** [DecodeSlice] reads the array form through the same [extractHits]
    and panics on the same replies. *)
Lemma DecodeSlice_count_mismatch (T : rtype) (cache : metaCache) :
  (DecodeSlice float float_zero ParseFloat round32 T
     (VArr [VInt64 2; VString "doc:1"; VArr [VString "status"; VString "PENDING"]])
     cache).1
  = Panic (IndexOutOfRange 4 3).
Proof. reflexivity. Qed.

(** Instantiated at a type that is neither a struct nor
    [map[string]string], such as [any], [DecodeSlice] panics in
    [buildMeta] as soon as the reply holds one well-formed hit. *)
Lemma DecodeSlice_non_struct (cache : metaCache) (id payload : value)
      (rest : list value) (m : row) :
  toStrMap payload = Ok m →
  (DecodeSlice float float_zero ParseFloat round32 TNonStruct
     (VArr (VInt64 1 :: id :: payload :: rest)) cache).1
  = Panic NumFieldOfNonStruct.
Proof.
  intros Hm. unfold DecodeSlice. simpl. by rewrite Hm.
Qed.

End decode_slice.

(** ** Further properties: the compiler *)

Section compiler_leaves.

Lemma concat_sep_strings sep x xs :
  String.concat sep (x :: xs) = x ++ String.concat "" ((λ y, sep ++ y) <$> xs).
Proof.
  revert x. induction xs as [|y ys IH]; intros x.
  - simpl. by rewrite append_nil_r.
  - change (x ++ sep ++ String.concat sep (y :: ys)
            = x ++ String.concat "" ((λ y, sep ++ y) <$> (y :: ys))).
    rewrite IH. simpl. destruct ys; simpl; str_norm.
Qed.

Lemma inLoop_tail vs : ∀ i,
  inLoop vs (S i) "" = String.concat "" ((λ y, "|" ++ y) <$> (fmtV <$> vs)).
Proof.
  induction vs as [|v vs IH]; intros i; simpl; [done|].
  rewrite inLoop_appends, IH. destruct vs; simpl; str_norm.
Qed.

Lemma Compile_In f vs :
  Compile (In f vs) = field f ++ ":{" ++ String.concat "|" (fmtV <$> vs) ++ "}".
Proof.
  unfold Compile. simpl. rewrite inLoop_appends.
  destruct vs as [|v vs]; [str_norm|].
  rewrite fmap_cons, concat_sep_strings. simpl.
  rewrite inLoop_appends, inLoop_tail. str_norm.
Qed.

End compiler_leaves.

(** X1. A set-membership predicate compiles to the field reference and
    the values joined by "|" inside braces, whatever the number of
    values (none gives an empty brace pair); a range predicate puts both
    bounds, separated by a space, inside square brackets when inclusive
    and round ones when exclusive. *)
Theorem Compile_leaf_predicates (f : string) (vs : list any) (lo hi : any) :
  Compile (In f vs) = field f ++ ":{" ++ String.concat "|" (fmtV <$> vs) ++ "}"
  ∧ Compile (In f []) = field f ++ ":{}"
  ∧ Compile (Range f lo hi true) = field f ++ ":[" ++ fmtV lo ++ " " ++ fmtV hi ++ "]"
  ∧ Compile (Range f lo hi false) = field f ++ ":(" ++ fmtV lo ++ " " ++ fmtV hi ++ ")".
Proof.
  split; [apply Compile_In|]. split; [apply Compile_In|].
  split; unfold Compile; simpl; str_norm.
Qed.

(** X2. Compiling a node into a builder that already holds text leaves
    that text in place and appends exactly what [Compile] returns for
    the node; two nodes compiled in a row append their texts in that
    order. *)
Theorem compile_into_builder (e1 e2 : Expr) (sb : string) :
  compile e1 sb = sb ++ Compile e1
  ∧ compile e2 (compile e1 sb) = sb ++ Compile e1 ++ Compile e2.
Proof.
  split; [apply compile_appends|].
  rewrite (compile_appends e2), (compile_appends e1). apply append_assoc.
Qed.

(** ** Further properties: the builders and the options *)

Section commands.

Local Open Scope list_scope.

Lemma Search_RawArgs_closed b :
  SearchBuilder.RawArgs b
  = Ok (["FT.SEARCH"; SearchBuilder.idx b; queryText (SearchBuilder.where_ b)]
          ++ returnClause (SearchBuilder.returnFields b)
          ++ sortClause (SearchBuilder.sortField b) (SearchBuilder.dir b)
          ++ limitClause (SearchBuilder.offset b) (SearchBuilder.limit b)).
Proof.
  unfold SearchBuilder.RawArgs, query.append, sortClause, limitClause.
  rewrite (foldl_append_each id), list_fmap_id.
  destruct (SearchBuilder.returnFields b) as [|f fs];
    destruct (String.eqb (SearchBuilder.sortField b) ""); simpl; try done;
    by rewrite <- !app_assoc.
Qed.

Lemma lastOf_snoc {A} (pick : optCall → option A) d calls c :
  lastOf pick d (calls ++ [c])
  = match pick c with Some x => x | None => lastOf pick d calls end.
Proof.
  unfold lastOf. rewrite omap_app. simpl. destruct (pick c); simpl.
  - by rewrite last_snoc.
  - by rewrite app_nil_r.
Qed.

(** The search builder after a list of option calls. *)
Lemma applySearch_calls calls : ∀ b,
  let b' := foldl (λ sb o, repository.applySearch o sb) b (toOpt <$> calls) in
  SearchBuilder.idx b' = SearchBuilder.idx b
  ∧ SearchBuilder.where_ b' = SearchBuilder.where_ b
  ∧ SearchBuilder.executor b' = SearchBuilder.executor b
  ∧ SearchBuilder.returnFields b' = lastOf pickSelect (SearchBuilder.returnFields b) calls
  ∧ (SearchBuilder.sortField b', SearchBuilder.dir b')
    = lastOf pickSort (SearchBuilder.sortField b, SearchBuilder.dir b) calls
  ∧ (SearchBuilder.offset b', SearchBuilder.limit b')
    = lastOf pickLimit (SearchBuilder.offset b, SearchBuilder.limit b) calls.
Proof.
  induction calls as [|c calls IH] using rev_ind; intros b; [done|].
  cbn zeta. rewrite fmap_app, foldl_app, !lastOf_snoc. cbn [fmap list_fmap foldl].
  destruct (IH b) as (H1 & H2 & H3 & H4 & H5 & H6).
  destruct c; simpl; rewrite ?H1, ?H2, ?H3, ?H4, ?H5, ?H6; try done.
  all: repeat split; try done; by injection H5; by injection H6.
Qed.

(** The aggregate builder after a list of option calls. *)
Lemma applyAgg_calls calls : ∀ b,
  let b' := foldl (λ ab o, repository.applyAgg o ab) b (toOpt <$> calls) in
  AggregateBuilder.idx b' = AggregateBuilder.idx b
  ∧ AggregateBuilder.where_ b' = AggregateBuilder.where_ b
  ∧ AggregateBuilder.executor b' = AggregateBuilder.executor b
  ∧ AggregateBuilder.groups b' = lastOf pickGroup (AggregateBuilder.groups b) calls
  ∧ AggregateBuilder.reducers b' = AggregateBuilder.reducers b ++ omap pickReducer calls
  ∧ (AggregateBuilder.offset b', AggregateBuilder.limit b')
    = lastOf pickLimit (AggregateBuilder.offset b, AggregateBuilder.limit b) calls.
Proof.
  induction calls as [|c calls IH] using rev_ind; intros b.
  { simpl. by rewrite app_nil_r. }
  cbn zeta. rewrite fmap_app, foldl_app, !lastOf_snoc, omap_app. cbn [fmap list_fmap foldl].
  destruct (IH b) as (H1 & H2 & H3 & H4 & H5 & H6).
  destruct c; simpl; rewrite ?H1, ?H2, ?H3, ?H4, ?H5, ?H6, ?app_nil_r, ?app_assoc;
    done.
Qed.

End commands.

(** X3. The FT.SEARCH argument vector is, in this order: the command
    name, the index, the query string, a RETURN clause with the number
    of fields and the fields when at least one field is selected, a
    SORTBY clause with field and direction when the sort field is not
    empty, and LIMIT with offset and limit, always last. *)
Theorem Search_RawArgs_vector (b : SearchBuilder.t) :
  SearchBuilder.RawArgs b
  = Ok (["FT.SEARCH"; SearchBuilder.idx b; queryText (SearchBuilder.where_ b)]
          ++ returnClause (SearchBuilder.returnFields b)
          ++ sortClause (SearchBuilder.sortField b) (SearchBuilder.dir b)
          ++ limitClause (SearchBuilder.offset b) (SearchBuilder.limit b))%list.
Proof. apply Search_RawArgs_closed. Qed.

(** X4. [Repository.Search] with a bound executor sends one command: the
    FT.SEARCH vector in which the last Select, the last sort option and
    the last Limit of the option list count, aggregate-only options
    have no effect, and LIMIT 0 10000 stands when no Limit is given.
    It returns the executor's failure unchanged, or the decoded reply. *)
Theorem Repository_Search_command
  (idx : string) (ex : list string → result value) (w : option Expr)
  (calls : list optCall) :
  repository.Search (repository.New idx (Some ex)) w (toOpt <$> calls)
  = (match ex (searchCommand idx w calls) with
     | Ok raw => DecodeMaps raw
     | Err e => Err e
     | Panic p => Panic p
     end, [searchCommand idx w calls]).
Proof.
  unfold repository.Search, repository.New.
  cbn [repository.index repository.exec].
  set (b := SearchBuilder.Using _ _).
  destruct (applySearch_calls calls b) as (H1 & H2 & H3 & H4 & H5 & H6).
  unfold SearchBuilder.Run. rewrite H3, Search_RawArgs_closed, H1, H2, H4.
  cbn [b SearchBuilder.Using SearchBuilder.Where SearchBuilder.NewSearch
       SearchBuilder.idx SearchBuilder.where_ SearchBuilder.executor
       SearchBuilder.returnFields SearchBuilder.sortField SearchBuilder.dir
       SearchBuilder.offset SearchBuilder.limit] in *.
  rewrite (f_equal fst H5 : SearchBuilder.sortField _ = _).
  rewrite (f_equal snd H5 : SearchBuilder.dir _ = _).
  rewrite (f_equal fst H6 : SearchBuilder.offset _ = _).
  rewrite (f_equal snd H6 : SearchBuilder.limit _ = _).
  fold (searchCommand idx w calls).
  by destruct (ex _).
Qed.

(** X5. [Repository.Aggregate] with a bound executor sends one command:
    the FT.AGGREGATE vector with the keys of the last Group option, one
    REDUCE group for each Count, Sum and Avg option in the order of the
    option list, and the last Limit (LIMIT 0 10000 when none is given);
    search-only options have no effect. *)
Theorem Repository_Aggregate_command
  (idx : string) (ex : list string → result value) (w : option Expr)
  (calls : list optCall) :
  repository.Aggregate (repository.New idx (Some ex)) w (toOpt <$> calls)
  = (match ex (aggregateCommand idx w calls) with
     | Ok raw => DecodeMaps raw
     | Err e => Err e
     | Panic p => Panic p
     end, [aggregateCommand idx w calls]).
Proof.
  unfold repository.Aggregate, repository.New.
  cbn [repository.index repository.exec].
  set (b := AggregateBuilder.Using _ _).
  destruct (applyAgg_calls calls b) as (H1 & H2 & H3 & H4 & H5 & H6).
  unfold AggregateBuilder.Run. rewrite H3, Agg_RawArgs_form.
  unfold aggHead. rewrite H1, H2, H4, H5.
  cbn [b AggregateBuilder.Using AggregateBuilder.Where AggregateBuilder.NewAggregate
       AggregateBuilder.idx AggregateBuilder.where_ AggregateBuilder.executor
       AggregateBuilder.groups AggregateBuilder.reducers
       AggregateBuilder.offset AggregateBuilder.limit] in *.
  rewrite (f_equal fst H6 : AggregateBuilder.offset _ = _).
  rewrite (f_equal snd H6 : AggregateBuilder.limit _ = _).
  rewrite app_nil_l.
  fold (aggregateCommand idx w calls).
  by destruct (ex _).
Qed.

(** X6. With an executor bound, [Run] of either builder hands the
    executor exactly one argument vector, the one [RawArgs] returns; a
    failure of the executor is returned unchanged, and a reply is
    returned as [DecodeMaps] decodes it. *)
Theorem Run_dispatches_once
  (sb : SearchBuilder.t) (ab : AggregateBuilder.t) (ex : list string → result value) :
  SearchBuilder.executor sb = Some ex →
  AggregateBuilder.executor ab = Some ex →
  ∃ sargs aargs,
    SearchBuilder.RawArgs sb = Ok sargs
    ∧ AggregateBuilder.RawArgs ab = Ok aargs
    ∧ SearchBuilder.Run sb
      = (match ex sargs with
         | Ok raw => DecodeMaps raw | Err e => Err e | Panic p => Panic p
         end, [sargs])
    ∧ AggregateBuilder.Run ab
      = (match ex aargs with
         | Ok raw => DecodeMaps raw | Err e => Err e | Panic p => Panic p
         end, [aargs]).
Proof.
  intros Hs Ha. unfold SearchBuilder.Run, AggregateBuilder.Run.
  rewrite Hs, Ha, Search_RawArgs_closed, Agg_RawArgs_form.
  eexists _, _. split; [done|]. split; [done|].
  split; by destruct (ex _).
Qed.

Lemma Run_dispatches_once_witness :
  ∃ sargs aargs,
    SearchBuilder.Run
      (SearchBuilder.Using (SearchBuilder.NewSearch "order_idx")
         (Some (λ _, Err "connection refused")))
    = (Err "connection refused", [sargs])
    ∧ AggregateBuilder.Run
        (AggregateBuilder.Using (AggregateBuilder.NewAggregate "order_idx")
           (Some (λ _, Err "connection refused")))
      = (Err "connection refused", [aargs]).
Proof.
  destruct (Run_dispatches_once
              (SearchBuilder.Using (SearchBuilder.NewSearch "order_idx")
                 (Some (λ _, Err "connection refused")))
              (AggregateBuilder.Using (AggregateBuilder.NewAggregate "order_idx")
                 (Some (λ _, Err "connection refused")))
              (λ _, Err "connection refused") eq_refl eq_refl)
    as (sargs & aargs & _ & _ & Hs & Ha).
  exists sargs, aargs. exact (conj Hs Ha).
Defined.

(** X7. Two settings never reach the wire: [WithTotal] leaves the
    FT.SEARCH vector as it was, and the alias given to a group key with
    [As] does not appear in the FT.AGGREGATE vector.  [By] marks its
    field the way predicates do, so marking twice is marking once. *)
Theorem settings_not_serialized
  (sb : SearchBuilder.t) (ab : AggregateBuilder.t) (keys : list GroupKey)
  (al : GroupKey → string) (f : string) :
  SearchBuilder.RawArgs (SearchBuilder.WithTotal sb) = SearchBuilder.RawArgs sb
  ∧ AggregateBuilder.RawArgs (AggregateBuilder.GroupBy ab ((λ g, As g (al g)) <$> keys))
    = AggregateBuilder.RawArgs (AggregateBuilder.GroupBy ab keys)
  ∧ raw (By f) = field f
  ∧ By (raw (By f)) = By f.
Proof.
  split; [done|]. split; [|split].
  - rewrite !Agg_RawArgs_form. unfold aggHead. simpl.
    rewrite length_fmap, <- list_fmap_compose. done.
  - unfold By, field. cbn [raw]. by destruct (strings.HasPrefix f "@").
  - assert (raw (By f) = field f) as ->.
    { unfold By, field. cbn [raw]. by destruct (strings.HasPrefix f "@"). }
    unfold By. rewrite field_marked. cbn [negb]. f_equal.
    unfold field. by destruct (strings.HasPrefix f "@").
Qed.

(** ** Further properties: the decoder *)

Section decoder_shapes.

Local Open Scope list_scope.
Local Open Scope nat_scope.
Local Arguments Nat.div : simpl never.

Lemma toStrMap_no_panic v : is_Panic (toStrMap v) = false.
Proof. by destruct v. Qed.

Lemma mapM_toStrMap_no_panic hits : is_Panic (mapM toStrMap hits) = false.
Proof.
  induction hits as [|h hits IH]; simpl; [done|].
  pose proof (toStrMap_no_panic h).
  destruct (toStrMap h); simpl; try done. by destruct (mapM toStrMap hits).
Qed.

(** The hits [extractHits] returns are as many as the total it reports. *)
Lemma extractHits_length reply total hits :
  extractHits reply = Ok (total, hits) → length hits = Z.to_nat total.
Proof.
  destruct reply; simpl; try done.
  - destruct xs as [|[] rest]; simpl; try done.
    + intros [= <- <-]. done.
    + destruct (n <? 0)%Z; [done|].
      rewrite arrayLoop_pairs by (rewrite ?length_replicate; lia).
      destruct (decide _) as [Hle|]; simpl; [|done].
      intros [= <- <-]. simpl.
      rewrite length_fmap, length_take, drop_0. lia.
  - destruct (m !! "results"%string) as [[]|]; try done.
    rewrite resultsLoop_mapM by (rewrite length_replicate; lia).
    destruct (mapM _ xs) as [ps| |]; simpl; try done.
    intros [= <- <-]. lia.
Qed.

(** [DecodeMaps] is: normalise, extract the hits, decode each hit. *)
Lemma DecodeMaps_mapM raw :
  DecodeMaps raw
  = reply ← normalize raw; th ← extractHits reply; mapM toStrMap th.2.
Proof.
  unfold DecodeMaps. destruct (normalize raw) as [reply| |]; simpl; try done.
  destruct (extractHits reply) as [[total hits]| |] eqn:E; simpl; try done.
  apply extractHits_length in E.
  rewrite rowsLoop_mapM by (rewrite length_replicate; lia).
  simpl. apply bind_Ok_r.
Qed.

Lemma DecodeMaps_SliceCmd cmd val : DecodeMaps (VSliceCmd cmd val) = DecodeMaps (VArr val).
Proof. reflexivity. Qed.

Lemma DecodeMaps_MapAny kvs : DecodeMaps (VMapAny kvs) = DecodeMaps (VMapStr (strKeyed kvs)).
Proof. reflexivity. Qed.

Lemma DecodeMaps_panics_legacy count rest :
  is_Panic (DecodeMaps (VArr (VInt64 count :: rest))) = true
  ↔ (count < 0)%Z ∨ length rest / 2 < Z.to_nat count.
Proof.
  rewrite DecodeMaps_legacy. destruct (count <? 0)%Z eqn:Hneg.
  - apply Z.ltb_lt in Hneg. simpl. split; [by left | done].
  - apply Z.ltb_ge in Hneg. destruct (decide _) as [Hle|Hgt].
    + rewrite mapM_toStrMap_no_panic. split; [done | lia].
    + simpl. split; [right; lia | done].
Qed.

Lemma pairs_flatPairs ps : pairs (flatPairs ps) = ps.
Proof.
  induction ps as [|[k v] ps IH]; [done|].
  change (flatPairs ((k, v) :: ps)) with (k :: v :: flatPairs ps).
  cbn [pairs]. by rewrite IH.
Qed.

Lemma flatPairs_length ps : length (flatPairs ps) = 2 * length ps.
Proof.
  induction ps as [|[k v] ps IH]; [done|].
  change (flatPairs ((k, v) :: ps)) with (k :: v :: flatPairs ps).
  cbn [length]. rewrite IH. lia.
Qed.

End decoder_shapes.

(** X8. [DecodeMaps] panics on exactly one kind of reply: the array
    form, as a slice or inside a command result, whose leading 64-bit
    count is negative or exceeds the number of complete
    identifier/payload pairs that follow.  On every other reply it
    returns rows or an error. *)
Theorem DecodeMaps_panics_iff (raw : value) :
  is_Panic (DecodeMaps raw) = true
  ↔ ∃ count rest,
      arrayReply raw count rest
      ∧ ((count < 0)%Z ∨ (length rest / 2 < Z.to_nat count)%nat).
Proof.
  split.
  - intros Hp. destruct raw; try done.
    + destruct xs as [|[] rest]; try done.
      exists n, rest. split; [by left|]. by apply DecodeMaps_panics_legacy.
    + by rewrite DecodeMaps_keyed_no_panic in Hp.
    + by rewrite DecodeMaps_MapAny, DecodeMaps_keyed_no_panic in Hp.
    + rewrite DecodeMaps_SliceCmd in Hp.
      destruct val as [|[] rest]; try done.
      exists n, rest. split; [right; by exists cmd|]. by apply DecodeMaps_panics_legacy.
  - intros (count & rest & [-> | [cmd ->]] & H); rewrite ?DecodeMaps_SliceCmd;
      by apply DecodeMaps_panics_legacy.
Qed.

(** X9. When [DecodeMaps] succeeds, the number of rows is the number of
    entries of [results] for a keyed-map reply, and the leading count
    for an array reply. *)
Theorem DecodeMaps_row_count (raw : value) (rows : list row) :
  DecodeMaps raw = Ok rows →
  (∀ top rs, raw = VMapStr top → top !! "results" = Some (VArr rs) →
             length rows = length rs)
  ∧ (∀ count rest, arrayReply raw count rest → Z.of_nat (length rows) = count).
Proof.
  intros Hok. split.
  - intros top rs -> Htop. by eapply DecodeMaps_keyed_total.
  - intros count rest Harr.
    assert (DecodeMaps (VArr (VInt64 count :: rest)) = Ok rows) as H.
    { destruct Harr as [-> | [cmd ->]]; [done|]. by rewrite DecodeMaps_SliceCmd in Hok. }
    rewrite DecodeMaps_legacy in H.
    destruct (count <? 0)%Z eqn:Hneg; [done|]. apply Z.ltb_ge in Hneg.
    destruct (decide _) as [Hle|]; [|done].
    apply mapM_Ok_length in H.
    rewrite length_fmap, length_take, pairs_length in H. lia.
Qed.

Lemma DecodeMaps_row_count_witness :
  ∃ rows, DecodeMaps legacyReply = Ok rows ∧ Z.of_nat (length rows) = 2%Z.
Proof.
  destruct (DecodeMaps legacyReply) as [rows| |] eqn:E; [|discriminate E..].
  exists rows. split; [reflexivity|].
  destruct (DecodeMaps_row_count legacyReply rows E) as [_ Harr].
  apply (Harr 2%Z [VString "doc:1"; VArr [VString "status"; VString "PENDING"];
                   VString "doc:2"; VArr [VString "status"; VString "SHIPPED"]]).
  left. reflexivity.
Defined.

(** X10. A legacy array reply built from any list of identifier/payload
    pairs, with their number as count, decodes to the payloads' rows in
    order, or fails with the error of the first payload that is neither
    a list nor a map; the identifiers play no part. *)
Theorem DecodeMaps_legacy_pairs (ps : list (value * value)) :
  DecodeMaps (VArr (VInt64 (Z.of_nat (length ps)) :: flatPairs ps))
  = mapM toStrMap (snd <$> ps).
Proof.
  rewrite DecodeMaps_legacy.
  assert ((Z.of_nat (length ps) <? 0)%Z = false) as -> by (apply Z.ltb_ge; lia).
  rewrite Nat2Z.id, flatPairs_length, pairs_flatPairs.
  replace (2 * length ps)%nat with (length ps * 2)%nat by lia.
  rewrite Nat.div_mul by lia.
  rewrite decide_True by lia. by rewrite firstn_all.
Qed.

(** X11. A keyed-map reply whose hits each carry a string-keyed
    [extra_attributes] map decodes to exactly these maps, in order,
    with every value stringified; what else a hit or the reply holds
    (a [values] list, other keys) is ignored. *)
Theorem DecodeMaps_extra_attributes
  (top : gmap string value) (hs : list (gmap string value * gmap string value)) :
  top !! "results" = Some (VArr ((λ h, VMapStr h.1) <$> hs)) →
  Forall (λ h, h.1 !! "extra_attributes" = Some (VMapStr h.2)) hs →
  DecodeMaps (VMapStr top)
  = Ok ((λ h : gmap string value * gmap string value, scan.toStr <$> h.2) <$> hs).
Proof.
  intros Htop Hhs. rewrite DecodeMaps_keyed, Htop.
  assert (mapM (λ r, hitPayload <$> hitMap r) ((λ h, VMapStr h.1) <$> hs)
          = Ok ((λ h : gmap string value * gmap string value, VMapStr h.2) <$> hs)) as ->.
  { clear Htop. induction Hhs as [|h hs Hh _ IH]; [done|].
    csimpl. unfold hitPayload at 1. rewrite Hh. csimpl.
    match goal with
    | |- ?m ≫= _ = _ => replace m with (Ok ((λ h : gmap string value * gmap string value,
                                               VMapStr h.2) <$> hs)) by (symmetry; exact IH)
    end. done. }
  csimpl. clear. induction hs as [|h hs IH]; [done|]. csimpl. by rewrite IH.
Qed.

Lemma DecodeMaps_extra_attributes_witness :
  DecodeMaps keyedReply = Ok [ scan.toStr <$> {[ "qty" := VString "3" ]} ].
Proof.
  unfold keyedReply.
  refine (DecodeMaps_extra_attributes _
            [ ({[ "extra_attributes" := VMapStr {[ "qty" := VString "3" ]} ]},
               {[ "qty" := VString "3" ]}) ] _ _).
  - vm_compute. reflexivity.
  - repeat constructor.
Defined.

(** ** Further properties: DecodeSlice and the repository handle *)

Section slice_decoding.

Local Open Scope list_scope.
Local Open Scope nat_scope.

Variable float : Type.
Variable float_zero : float.
Variable ParseFloat : string → option float.
Variable round32 : float → float.

Lemma DecodeSlice_unfold T raw cache :
  DecodeSlice float float_zero ParseFloat round32 T raw cache
  = match normalize raw ≫= extractHits with
    | Ok th =>
        sliceLoop float ParseFloat round32 T th.2 0
          (replicate (Z.to_nat th.1) (zero float float_zero T)) cache
    | Err e => (Err e, cache)
    | Panic p => (Panic p, cache)
    end.
Proof.
  unfold DecodeSlice. destruct (normalize raw) as [reply| |]; simpl; try done.
  by destruct (extractHits reply) as [[total hits]| |].
Qed.

Lemma sliceLoop_map hits : ∀ i out cache,
  i + length hits = length out →
  sliceLoop float ParseFloat round32 TMap hits i out cache
  = (ms ← mapM toStrMap hits; Ok (take i out ++ (MapVal <$> ms)), cache).
Proof.
  induction hits as [|kv hits IH]; intros i out cache Hlen; simpl in *.
  - rewrite app_nil_r, take_ge by lia. done.
  - destruct (toStrMap kv) as [m| |]; simpl; try done.
    destruct (lookup_lt_is_Some_2 out i) as [cell ->]; [lia|].
    rewrite IH by (rewrite length_insert; lia).
    destruct (mapM toStrMap hits) as [ms| |]; simpl; try done.
    do 2 f_equal. rewrite (take_S_r _ _ (MapVal m)) by (apply list_lookup_insert_eq; lia).
    rewrite take_insert_ge by lia. by rewrite <- app_assoc.
Qed.

Lemma assign_struct_ok fields ptr kv cache :
  settable fields → cache_sound cache →
  ∃ v cache',
    assign float ParseFloat round32 (TStruct fields) ptr kv cache = (Ok v, cache')
    ∧ cache_sound cache'.
Proof.
  intros Hset Hc. destruct ptr as [m|val|].
  - unfold assign. destruct (loadMeta_struct fields cache Hc) as [Hm Hc'].
    destruct (loadMeta (TStruct fields) cache) as [r cache']. simpl in Hm, Hc'.
    subst r. eauto.
  - destruct (assign_struct_total float ParseFloat round32 fields val kv cache Hset Hc)
      as [[val' Hv] Hc'].
    destruct (assign _ _ _ _ _ _ _) as [r cache']. simpl in Hv, Hc'. subst r. eauto.
  - unfold assign. destruct (loadMeta_struct fields cache Hc) as [Hm Hc'].
    destruct (loadMeta (TStruct fields) cache) as [r cache']. simpl in Hm, Hc'.
    subst r. eauto.
Qed.

Lemma sliceLoop_struct fields hits : ∀ i out cache,
  settable fields → cache_sound cache →
  i + length hits = length out →
  cache_sound (sliceLoop float ParseFloat round32 (TStruct fields) hits i out cache).2
  ∧ match mapM toStrMap hits with
    | Ok ms =>
        ∃ out', (sliceLoop float ParseFloat round32 (TStruct fields) hits i out cache).1
                = Ok out' ∧ length out' = length out
    | Err e =>
        (sliceLoop float ParseFloat round32 (TStruct fields) hits i out cache).1 = Err e
    | Panic p =>
        (sliceLoop float ParseFloat round32 (TStruct fields) hits i out cache).1 = Panic p
    end.
Proof.
  induction hits as [|kv hits IH]; intros i out cache Hset Hc Hlen.
  - simpl. eauto.
  - cbn [sliceLoop mapM]. simpl in Hlen.
    destruct (toStrMap kv) as [m| |]; [|done..].
    destruct (lookup_lt_is_Some_2 out i) as [cell ->]; [lia|].
    destruct (assign_struct_ok fields cell m cache Hset Hc) as (v & cache' & -> & Hc').
    destruct (IH (S i) (<[i := v]> out) cache' Hset Hc') as [Hs Hr];
      [rewrite length_insert; lia|].
    split; [done|]. csimpl.
    destruct (mapM toStrMap hits) as [ms| |]; csimpl; [|done..].
    destruct Hr as (out' & -> & Hl). exists out'. split; [done|].
    by rewrite Hl, length_insert.
Qed.

Lemma DecodeSlice_first_hit_panics raw row rows cache :
  DecodeMaps raw = Ok (row :: rows) →
  DecodeSlice float float_zero ParseFloat round32 TNonStruct raw cache
  = (Panic NumFieldOfNonStruct, cache).
Proof.
  rewrite DecodeMaps_mapM, DecodeSlice_unfold.
  destruct (normalize raw) as [reply| |]; csimpl; try done.
  destruct (extractHits reply) as [[total hits]| |] eqn:E; csimpl; try done.
  apply extractHits_length in E.
  destruct hits as [|h hits]; csimpl; [done|].
  destruct (toStrMap h) as [m| |]; csimpl; try done.
  intros _. simpl in E. destruct (Z.to_nat total); [done|]. done.
Qed.

Lemma DecodeSlice_no_hit raw T cache :
  DecodeMaps raw = Ok [] →
  DecodeSlice float float_zero ParseFloat round32 T raw cache = (Ok [], cache).
Proof.
  rewrite DecodeMaps_mapM, DecodeSlice_unfold.
  destruct (normalize raw) as [reply| |]; csimpl; try done.
  destruct (extractHits reply) as [[total hits]| |] eqn:E; csimpl; try done.
  apply extractHits_length in E.
  destruct hits as [|h hits]; csimpl.
  - simpl in E. by rewrite <- E.
  - destruct (toStrMap h); csimpl; try done. by destruct (mapM toStrMap hits).
Qed.

End slice_decoding.

(** X12. Instantiated at [map[string]string], [DecodeSlice] returns
    what [DecodeMaps] returns, each row as it is, and leaves the
    metadata cache untouched. *)
Theorem DecodeSlice_map_agrees
  (float : Type) (float_zero : float) (ParseFloat : string → option float)
  (round32 : float → float) (raw : value) (cache : metaCache) :
  DecodeSlice float float_zero ParseFloat round32 TMap raw cache
  = ((λ rows : list row, MapVal <$> rows) <$> DecodeMaps raw, cache).
Proof.
  rewrite DecodeSlice_unfold, DecodeMaps_mapM.
  destruct (normalize raw) as [reply| |]; csimpl; try done.
  destruct (extractHits reply) as [[total hits]| |] eqn:E; csimpl; try done.
  apply extractHits_length in E.
  rewrite sliceLoop_map by (rewrite length_replicate; lia).
  by destruct (mapM toStrMap hits).
Qed.

(** X13. Instantiated at a struct type whose tagged fields are all
    exported, [DecodeSlice] ends as [DecodeMaps] does on the same
    reply: the same error, the same panic, or as many values as
    [DecodeMaps] returns rows; unparsable field texts never turn a
    decodable reply into a failure.  A sound metadata cache stays
    sound. *)
Theorem DecodeSlice_struct_outcome
  (float : Type) (float_zero : float) (ParseFloat : string → option float)
  (round32 : float → float) (fields : list StructField) (raw : value)
  (cache : metaCache) :
  settable fields → cache_sound cache →
  let out := DecodeSlice float float_zero ParseFloat round32 (TStruct fields) raw cache in
  cache_sound out.2
  ∧ match DecodeMaps raw with
    | Ok rows => ∃ vals, out.1 = Ok vals ∧ length vals = length rows
    | Err e => out.1 = Err e
    | Panic p => out.1 = Panic p
    end.
Proof.
  intros Hset Hc out. unfold out. rewrite DecodeSlice_unfold, DecodeMaps_mapM.
  destruct (normalize raw) as [reply| |]; csimpl; try done.
  destruct (extractHits reply) as [[total hits]| |] eqn:E; csimpl; try done.
  apply extractHits_length in E.
  destruct (sliceLoop_struct float ParseFloat round32 fields hits 0
              (replicate (Z.to_nat total) (zero float float_zero (TStruct fields)))
              cache Hset Hc) as [Hs Hr]; [rewrite length_replicate; lia|].
  split; [exact Hs|].
  destruct (mapM toStrMap hits) as [ms| |] eqn:Em; [|exact Hr..].
  destruct Hr as (out' & Ho & Hl). exists out'. split; [exact Ho|].
  apply mapM_Ok_length in Em. rewrite Hl, length_replicate. lia.
Qed.

Lemma DecodeSlice_struct_outcome_witness :
  ∃ vals,
    (DecodeSlice unit () (λ _, None) id (oneField "@status,TAG" KString) legacyReply ∅).1
    = Ok vals ∧ length vals = 2%nat.
Proof.
  assert (cache_sound ∅) as Hc by (intros fs ms H; by rewrite lookup_empty in H).
  assert (settable [{| Tag := "@status,TAG"; Exported := true; FieldKind := KString |}])
    as Hset by (repeat constructor).
  destruct (DecodeSlice_struct_outcome unit () (λ _, None) id _ legacyReply ∅ Hset Hc)
    as [_ H].
  exact H.
Defined.

(** X14. [Repo.Search] decodes with [DecodeSlice] at type [any]: it
    returns an empty result for a reply that holds no row, and panics
    in [buildMeta] for every reply from which [DecodeMaps] would return
    at least one row. *)
Theorem RepoSearch_rows
  (float : Type) (float_zero : float) (ParseFloat : string → option float)
  (round32 : float → float) (resp : value) (rows : list row)
  (indexName : string) (w : option Expr) (opts : list repository.optFunc)
  (cache : metaCache) :
  DecodeMaps resp = Ok rows →
  (repository.RepoSearch float float_zero ParseFloat round32 (λ _, Ok resp)
     indexName w opts cache).1.1
  = match rows with
    | [] => Ok []
    | _ :: _ => Panic NumFieldOfNonStruct
    end.
Proof.
  intros Hrows. unfold repository.RepoSearch.
  rewrite Search_RawArgs_closed.
  destruct rows as [|row rows].
  - by rewrite (DecodeSlice_no_hit _ _ _ _ _ _ _ Hrows).
  - by rewrite (DecodeSlice_first_hit_panics _ _ _ _ _ _ _ _ Hrows).
Qed.

Lemma RepoSearch_rows_witness :
  (repository.RepoSearch unit () (λ _, None) id (λ _, Ok legacyReply)
     "order_idx" None [] ∅).1.1
  = Panic NumFieldOfNonStruct.
Proof.
  apply (RepoSearch_rows unit () (λ _, None) id legacyReply
           [ {[ "status" := "PENDING" ]}; {[ "status" := "SHIPPED" ]} ]).
  vm_compute. reflexivity.
Defined.

(** ** Further properties: typed assignment *)

Section assignment_fieldwise.

Local Open Scope list_scope.
Local Open Scope nat_scope.

Variable float : Type.
Variable float_zero : float.
Variable ParseFloat : string → option float.
Variable round32 : float → float.

Lemma SplitHead_Split s sep : strings.SplitHead s sep = hd ""%string (strings.Split s sep).
Proof.
  induction s as [|c s IH]; simpl; [done|].
  destruct (Ascii.eqb c sep); [done|].
  rewrite IH. by destruct (strings.Split s sep).
Qed.

Lemma buildMetaLoop_out fields : ∀ i out,
  buildMetaLoop fields i out = out ++ buildMetaLoop fields i [].
Proof.
  induction fields as [|f fields IH]; intros i out; simpl.
  - by rewrite app_nil_r.
  - destruct (String.eqb (Tag f) ""); [apply IH|].
    rewrite IH, (IH _ [_]). by rewrite app_assoc.
Qed.

Lemma buildMetaLoop_cons f fields i :
  buildMetaLoop (f :: fields) i []
  = (if String.eqb (Tag f) "" then []
     else [{| name := tagName (Tag f); index := i; kind := FieldKind f |}])
    ++ buildMetaLoop fields (S i) [].
Proof.
  simpl. destruct (String.eqb (Tag f) ""); [done|].
  rewrite buildMetaLoop_out. unfold tagName. by rewrite SplitHead_Split.
Qed.

Lemma assignLoop_app fields kv m1 m2 val :
  assignLoop float ParseFloat round32 fields kv (m1 ++ m2) val
  = assignLoop float ParseFloat round32 fields kv m1 val
    ≫= assignLoop float ParseFloat round32 fields kv m2.
Proof.
  revert val. induction m1 as [|fm m1 IH]; intros val; simpl; [done|].
  destruct (assignField _ _ _ _ _ _ _); simpl; [apply IH|done..].
Qed.

(** One metadata entry, applied to the field it was built from. *)
Lemma assignField_assigned fields kv val f i old :
  fields !! i = Some f → Exported f = true → val !! i = Some old →
  assignField float ParseFloat round32 fields kv val
    {| name := tagName (Tag f); index := i; kind := FieldKind f |}
  = Ok (<[i := match kv !! tagName (Tag f) ≫= coerce ParseFloat round32 (FieldKind f) with
              | Some x => x
              | None => old
              end]> val).
Proof.
  intros Hf Hex Hold. unfold assignField, setField. cbn [name index kind].
  rewrite Hf, Hex.
  destruct (kv !! tagName (Tag f)) as [s|]; csimpl;
    [|by rewrite list_insert_id].
  destruct (FieldKind f); csimpl; try done.
  - destruct (strconv.ParseInt _); csimpl; [done | by rewrite list_insert_id].
  - destruct (strconv.ParseInt _); csimpl; [done | by rewrite list_insert_id].
  - destruct (strconv.ParseInt _); csimpl; [done | by rewrite list_insert_id].
  - destruct (ParseFloat _); csimpl; [done | by rewrite list_insert_id].
  - destruct (ParseFloat _); csimpl; [done | by rewrite list_insert_id].
  - by rewrite list_insert_id.
Qed.

Lemma assignLoop_fieldwise kv fs : ∀ pre val,
  settable (pre ++ fs) →
  length val = length (pre ++ fs) →
  assignLoop float ParseFloat round32 (pre ++ fs) kv
    (buildMetaLoop fs (length pre) []) val
  = Ok (take (length pre) val
          ++ zip_with (assigned ParseFloat round32 kv) fs (drop (length pre) val)).
Proof.
  induction fs as [|f fs IH]; intros pre val Hset Hlen.
  - simpl. rewrite !app_nil_r in *. by rewrite take_ge by lia.
  - rewrite length_app in Hlen. simpl in Hlen.
    destruct (lookup_lt_is_Some_2 val (length pre)) as [old Hold]; [lia|].
    rewrite (drop_S _ _ _ Hold). cbn [zip_with].
    rewrite buildMetaLoop_cons, assignLoop_app.
    assert ((pre ++ f :: fs) !! length pre = Some f) as Hf
        by (by rewrite lookup_app_r, Nat.sub_diag by lia).
    assert (pre ++ f :: fs = (pre ++ [f]) ++ fs) as Heq by (by rewrite <- app_assoc).
    assert (S (length pre) = length (pre ++ [f])) as Hl
        by (rewrite length_app; simpl; lia).
    unfold assigned at 1.
    destruct (String.eqb (Tag f) "") eqn:Etag.
    + csimpl. rewrite Heq, Hl, IH; [|by rewrite <- Heq|rewrite <- Heq, length_app; simpl; lia].
      rewrite <- Hl, (take_S_r _ _ old) by done. by rewrite <- app_assoc.
    + assert (Exported f = true) as Hex.
      { unfold settable in Hset. rewrite Forall_forall in Hset.
        apply Hset; [by apply list_elem_of_lookup_2 in Hf|].
        by apply String.eqb_neq in Etag. }
      cbn [assignLoop]. rewrite (assignField_assigned _ _ _ _ _ old Hf Hex Hold).
      csimpl. rewrite Heq, Hl, IH;
        [|by rewrite <- Heq|rewrite length_insert, <- Heq, length_app; simpl; lia].
      set (x := match kv !! tagName (Tag f) ≫= _ with Some x => x | None => old end).
      rewrite <- Hl, (take_S_r _ _ x) by (apply list_lookup_insert_eq; lia).
      rewrite take_insert_ge, drop_insert_lt by lia. by rewrite <- app_assoc.
Qed.

End assignment_fieldwise.

(** ** C9: assignment of a one-entry row *)

Section assignment_qty.

Local Open Scope list_scope.
Local Open Scope nat_scope.

Variable float : Type.
Variable float_zero : float.
Variable ParseFloat : string → option float.
Variable round32 : float → float.



End assignment_qty.




(** X15. Assignment into a struct works field by field.  A field with a
    tag takes the coerced text of the row entry its tag names; it keeps
    its value when the row has no such entry or the text has no reading
    in the field's kind.  Fields without a tag are never written, and
    row entries that name no field are ignored. *)
Theorem assign_fieldwise
  (float : Type) (ParseFloat : string → option float) (round32 : float → float)
  (fields : list StructField) (val : list (fieldVal float)) (kv : row)
  (cache : metaCache) :
  settable fields → cache_sound cache → length val = length fields →
  (assign float ParseFloat round32 (TStruct fields) (StructVal val) kv cache).1
  = Ok (StructVal (zip_with (assigned ParseFloat round32 kv) fields val)).
Proof.
  intros Hset Hc Hlen. unfold assign.
  destruct (loadMeta_struct fields cache Hc) as [Hm _].
  destruct (loadMeta (TStruct fields) cache) as [r cache']. simpl in Hm. subst r.
  cbn [fst].
  pose proof (assignLoop_fieldwise float ParseFloat round32 kv fields [] val Hset Hlen)
    as H.
  simpl in H. rewrite drop_0 in H. by rewrite H.
Qed.

Lemma assign_fieldwise_witness :
  (assign unit (λ _, None) id
     (TStruct [{| Tag := "@order_id,TAG"; Exported := true; FieldKind := KString |};
               {| Tag := ""; Exported := false; FieldKind := KOther |};
               {| Tag := "@qty,NUMERIC"; Exported := true; FieldKind := KInt |}])
     (StructVal [StrVal ""; OpaqueVal; IntVal 5%Z])
     {[ "order_id" := "101"; "qty" := "abc"; "status" := "PENDING" ]} ∅).1
  = Ok (StructVal [StrVal "101"; OpaqueVal; IntVal 5%Z]).
Proof.
  assert (cache_sound ∅) as Hc by (intros fs ms H; by rewrite lookup_empty in H).
  assert (settable
            [{| Tag := "@order_id,TAG"; Exported := true; FieldKind := KString |};
             {| Tag := ""; Exported := false; FieldKind := KOther |};
             {| Tag := "@qty,NUMERIC"; Exported := true; FieldKind := KInt |}]) as Hset.
  { repeat constructor. intros H. by destruct H. }
  exact (assign_fieldwise unit (λ _, None) id _
           [StrVal ""; OpaqueVal; IntVal 5%Z]
           {[ "order_id" := "101"; "qty" := "abc"; "status" := "PENDING" ]}
           ∅ Hset Hc eq_refl).
Defined.

(** X16. The metadata cache is filled on first use and then left alone:
    after [assign] into a struct type the cache holds that type's
    metadata, every earlier entry is still there, the cache is sound,
    and a further [assign] into the same type leaves the cache as it
    is.  [assign] into a map does not touch the cache. *)
Theorem assign_cache
  (float : Type) (ParseFloat : string → option float) (round32 : float → float)
  (fields : list StructField) (ptr ptr' : tval float) (kv kv' : row)
  (cache : metaCache) :
  cache_sound cache →
  let cache' := (assign float ParseFloat round32 (TStruct fields) ptr kv cache).2 in
  cache' !! fields = Some (buildMetaLoop fields 0 [])
  ∧ cache ⊆ cache'
  ∧ cache_sound cache'
  ∧ (assign float ParseFloat round32 (TStruct fields) ptr' kv' cache').2 = cache'
  ∧ (assign float ParseFloat round32 TMap ptr kv cache).2 = cache.
Proof.
  intros Hc cache'.
  assert (∀ p k c, (assign float ParseFloat round32 (TStruct fields) p k c).2
                   = (loadMeta (TStruct fields) c).2) as Hassign.
  { intros p k c. unfold assign.
    destruct (loadMeta (TStruct fields) c) as [[metas| |] c']; [|done..].
    by destruct p. }
  assert (∀ c m, c !! fields = Some m → (loadMeta (TStruct fields) c).2 = c) as Hhit.
  { intros c m Hm. unfold loadMeta. by rewrite Hm. }
  unfold cache'. rewrite !Hassign.
  destruct (cache !! fields) as [metas|] eqn:E.
  - rewrite (Hhit _ _ E), (Hhit _ _ E). repeat split; try done.
    rewrite E. f_equal. by apply Hc.
  - assert ((loadMeta (TStruct fields) cache).2
            = <[fields := buildMetaLoop fields 0 []]> cache) as ->.
    { unfold loadMeta. by rewrite E. }
    rewrite (Hhit _ _ (lookup_insert_eq _ _ _)). repeat split; try done.
    + apply lookup_insert_eq.
    + by apply insert_subseteq.
    + intros fs ms. rewrite lookup_insert. case_decide as Heq; [|by apply Hc].
      intros [= <-]. by rewrite Heq.
Qed.

Lemma assign_cache_witness :
  (assign unit (λ _, None) id (oneField "@qty,NUMERIC" KInt)
     (zero unit () (oneField "@qty,NUMERIC" KInt)) {[ "qty" := "7" ]} ∅).2
  !! [{| Tag := "@qty,NUMERIC"; Exported := true; FieldKind := KInt |}]
  = Some [{| name := "qty"; index := 0; kind := KInt |}].
Proof.
  assert (cache_sound ∅) as Hc by (intros fs ms H; by rewrite lookup_empty in H).
  destruct (assign_cache unit (λ _, None) id
              [{| Tag := "@qty,NUMERIC"; Exported := true; FieldKind := KInt |}]
              (zero unit () (oneField "@qty,NUMERIC" KInt))
              (zero unit () (oneField "@qty,NUMERIC" KInt))
              {[ "qty" := "7" ]} ∅ ∅ Hc) as [H _].
  exact H.
Defined.

(** ** Further properties: integers through text *)

Section decimal_text.

Local Open Scope Z_scope.

Lemma of_uint_acc_ge d : ∀ acc, (acc <= Pos.of_uint_acc d acc)%positive.
Proof.
  induction d; intros acc; simpl; try reflexivity;
    (etransitivity; [|apply IHd]); lia.
Qed.

Lemma parseDigits_acc d : ∀ acc : positive,
  Z.pos (Pos.of_uint_acc d acc) < 2 ^ 64 →
  strconv.parseDigits (NilEmpty.string_of_uint d) (Z.pos acc)
  = Some (Z.pos (Pos.of_uint_acc d acc)).
Proof.
  induction d; intros acc Hlt; [done|..];
    cbn [NilEmpty.string_of_uint strconv.parseDigits Pos.of_uint_acc] in *;
    (match goal with
     | |- context [strconv.digit ?c] =>
         change (strconv.digit c) with (Some (Z.of_N (N_of_ascii c) - 48))
     end);
    cbn [N_of_ascii N.add N.mul Z.of_N] in *; cbn;
    (match goal with
     | H : Z.pos (Pos.of_uint_acc d ?a) < _ |- _ =>
         pose proof (of_uint_acc_ge d a) as Hge;
         specialize (IHd a H)
     end);
    (match goal with
     | |- context [2 ^ 64 <=? ?x] =>
         replace (2 ^ 64 <=? x) with false by (symmetry; apply Z.leb_gt; lia)
     end);
    (etransitivity; [|exact IHd]); f_equal; lia.
Qed.

Lemma parseDigits_uint d :
  Z.of_N (Pos.of_uint d) < 2 ^ 64 →
  strconv.parseDigits (NilEmpty.string_of_uint d) 0 = Some (Z.of_N (Pos.of_uint d)).
Proof.
  induction d; intros Hlt; [done|..]; cbn [Pos.of_uint] in *;
    [by apply IHd|..]; by apply (parseDigits_acc d).
Qed.

Lemma string_of_uint_nonempty d :
  d ≠ Decimal.Nil → NilEmpty.string_of_uint d ≠ EmptyString.
Proof. by destruct d. Qed.

Lemma ParseUint_to_uint p :
  Z.pos p < 2 ^ 64 →
  strconv.ParseUint (NilZero.string_of_uint (Pos.to_uint p)) = Some (Z.pos p).
Proof.
  intros Hlt. pose proof (DecimalPos.Unsigned.to_uint_nonnil p) as Hnil.
  pose proof (DecimalPos.Unsigned.of_to p) as Hof.
  assert (NilZero.string_of_uint (Pos.to_uint p)
          = NilEmpty.string_of_uint (Pos.to_uint p)) as ->
      by (by destruct (Pos.to_uint p)).
  unfold strconv.ParseUint.
  pose proof (string_of_uint_nonempty _ Hnil).
  destruct (NilEmpty.string_of_uint (Pos.to_uint p)) eqn:E; [done|].
  rewrite <- E, parseDigits_uint; rewrite Hof; [done | simpl; lia].
Qed.

(** The first byte of a decimal numeral is a digit. *)
Lemma string_of_uint_head d :
  d ≠ Decimal.Nil →
  ∃ c r, NilEmpty.string_of_uint d = String c r
         ∧ (48 <= Z.of_N (N_of_ascii c) <= 57).
Proof. destruct d; intros Hd; try done; eexists _, _; split; try reflexivity; simpl; lia. Qed.

(** [strconv.ParseInt] reads back what [strconv.FormatInt] prints. *)
Lemma ParseInt_FormatInt n :
  - 2 ^ 63 <= n < 2 ^ 63 → strconv.ParseInt (strconv.FormatInt n) = Some n.
Proof.
  intros Hn. unfold strconv.FormatInt. destruct n as [|p|p]; [done|..].
  - cbn [Z.to_int NilZero.string_of_int].
    pose proof (ParseUint_to_uint p ltac:(lia)) as HU.
    pose proof (DecimalPos.Unsigned.to_uint_nonnil p) as Hnil.
    destruct (string_of_uint_head _ Hnil) as (c & r & E & Hc).
    assert (NilZero.string_of_uint (Pos.to_uint p) = String c r) as E'
        by (rewrite <- E; by destruct (Pos.to_uint p)).
    rewrite E' in *. unfold strconv.ParseInt.
    assert (Ascii.eqb c "+" = false) as ->.
    { apply Ascii.eqb_neq. intros ->. simpl in Hc. lia. }
    assert (Ascii.eqb c "-" = false) as ->.
    { apply Ascii.eqb_neq. intros ->. simpl in Hc. lia. }
    rewrite HU. cbn [negb andb].
    replace (2 ^ 63 <=? Z.pos p) with false by (symmetry; apply Z.leb_gt; lia).
    done.
  - cbn [Z.to_int NilZero.string_of_int]. unfold strconv.ParseInt.
    change (Ascii.eqb "-" "+") with false. change (Ascii.eqb "-" "-") with true.
    cbv iota. rewrite (ParseUint_to_uint p) by lia. cbn [negb andb].
    replace (2 ^ 63 <? Z.pos p) with false by (symmetry; apply Z.ltb_ge; lia).
    done.
Qed.

End decimal_text.

Section trimmed_text.

Local Open Scope Z_scope.

Lemma digit_cases c :
  48 <= Z.of_N (N_of_ascii c) <= 57 →
  c ∈ ["0"; "1"; "2"; "3"; "4"; "5"; "6"; "7"; "8"; "9"]%char.
Proof.
  intros Hc. rewrite <- (ascii_N_embedding c).
  assert (∃ k : nat, (k < 10)%nat ∧ N_of_ascii c = (48 + N.of_nat k)%N) as (k & Hk & ->).
  { exists (Z.to_nat (Z.of_N (N_of_ascii c) - 48)). split; lia. }
  do 10 (destruct k as [|k]; [set_solver|]). lia.
Qed.

Lemma stripSpaceRune_sign_digit c r :
  48 <= Z.of_N (N_of_ascii c) <= 57 ∨ c = "-"%char →
  strings.stripSpaceRune (String c r) = None.
Proof.
  intros [Hc | ->]; [|done].
  apply digit_cases in Hc. set_unfold in Hc.
  destruct Hc as [-> | [-> | [-> | [-> | [-> | [-> | [-> | [-> | [-> | [-> | []]]]]]]]]]];
    reflexivity.
Qed.

Lemma stripSpaceRune_three c b a :
  Z.of_N (N_of_ascii a) < 128 →
  strings.stripSpaceRune (String c (String b (String a EmptyString)))
  ≠ Some EmptyString.
Proof.
  intros Ha. unfold strings.stripSpaceRune, strings.byte_of.
  assert (0 <= Z.of_N (N_of_ascii a)) by lia.
  repeat case_match; try done; exfalso;
    repeat match goal with
           | H : (_ && _) = true |- _ => apply andb_true_iff in H as [? ?]
           | H : (_ || _) = true |- _ => apply orb_true_iff in H as [? | ?]
           | H : (_ =? _)%N = true |- _ => apply N.eqb_eq in H
           | H : (_ <=? _)%N = true |- _ => apply N.leb_le in H
           end; lia.
Qed.

Lemma stripSpaceRuneRev_digit a r :
  48 <= Z.of_N (N_of_ascii a) <= 57 →
  strings.stripSpaceRuneRev (a :: r) = None.
Proof.
  intros Ha. unfold strings.stripSpaceRuneRev.
  assert (strings.asciiSpace a = false) as ->.
  { apply digit_cases in Ha. set_unfold in Ha.
    destruct Ha as [-> | [-> | [-> | [-> | [-> | [-> | [-> | [-> | [-> | [-> | []]]]]]]]]]];
      reflexivity. }
  destruct r as [|b r]; [done|].
  assert (((strings.byte_of a =? 133)%N || (strings.byte_of a =? 160)%N) = false) as ->.
  { unfold strings.byte_of.
    destruct (N.eqb_spec (N_of_ascii a) 133), (N.eqb_spec (N_of_ascii a) 160);
      try done; lia. }
  rewrite andb_false_r. destruct r as [|c r]; [done|].
  pose proof (stripSpaceRune_three c b a ltac:(lia)) as H3.
  destruct (strings.stripSpaceRune _) as [[|]|]; done.
Qed.

Lemma TrimSpace_untouched s :
  (s = EmptyString ∨ strings.stripSpaceRune s = None) →
  (s = EmptyString
   ∨ strings.stripSpaceRuneRev (rev (list_ascii_of_string s)) = None) →
  strings.TrimSpace s = s.
Proof.
  intros Hl Hr. unfold strings.TrimSpace.
  assert (strings.TrimLeftSpace s = s) as ->.
  { unfold strings.TrimLeftSpace. destruct Hl as [-> | Hl]; [done|].
    destruct s; [done|]. cbn [String.length strings.trimLeftLoop]. by rewrite Hl. }
  unfold strings.TrimRightSpace. destruct Hr as [-> | Hr]; [done|].
  destruct s; [done|]. cbn [String.length strings.trimRightLoop]. rewrite Hr.
  by rewrite rev_involutive, string_of_list_ascii_of_string.
Qed.

(** The last byte of a decimal numeral is a digit. *)
Lemma string_of_uint_last d :
  d ≠ Decimal.Nil →
  ∃ a r, rev (list_ascii_of_string (NilEmpty.string_of_uint d)) = a :: r
         ∧ 48 <= Z.of_N (N_of_ascii a) <= 57.
Proof.
  induction d; intros Hd; [done|..];
    cbn [NilEmpty.string_of_uint list_ascii_of_string rev];
    (assert (d = Decimal.Nil ∨ d ≠ Decimal.Nil) as [-> | Hne]
       by (destruct d; auto; right; discriminate);
     [eexists _, _; split; [reflexivity | simpl; lia]
     |destruct (IHd Hne) as (a & r & -> & Ha); eexists _, _; split;
      [reflexivity | exact Ha]]).
Qed.

Lemma TrimSpace_FormatInt n : strings.TrimSpace (strconv.FormatInt n) = strconv.FormatInt n.
Proof.
  unfold strconv.FormatInt. destruct n as [|p|p]; [done|..];
    cbn [Z.to_int NilZero.string_of_int];
    pose proof (DecimalPos.Unsigned.to_uint_nonnil p) as Hnil;
    destruct (string_of_uint_head _ Hnil) as (c & r & E & Hc);
    destruct (string_of_uint_last _ Hnil) as (a & t & El & Ha);
    assert (NilZero.string_of_uint (Pos.to_uint p)
            = NilEmpty.string_of_uint (Pos.to_uint p)) as ->
      by (by destruct (Pos.to_uint p)).
  - apply TrimSpace_untouched; right.
    + rewrite E. apply stripSpaceRune_sign_digit. by left.
    + rewrite El. by apply stripSpaceRuneRev_digit.
  - apply TrimSpace_untouched; right.
    + apply stripSpaceRune_sign_digit. by right.
    + cbn [list_ascii_of_string rev]. rewrite El. simpl.
      by apply stripSpaceRuneRev_digit.
Qed.

End trimmed_text.

(** X17. An integer of a reply survives the way through text.  A
    payload pair whose value is the 64-bit integer [n] becomes a row
    entry holding the decimal text of [n]; assigning that row to a
    struct stores [n] in the integer field whose tag names the key,
    reduced to 32 bits when the field is an [int32]. *)
Theorem int_field_round_trip
  (float : Type) (ParseFloat : string → option float) (round32 : float → float)
  (fields : list StructField) (val : list (fieldVal float)) (key : string)
  (n : Z) (i : nat) (f : StructField) (cache : metaCache) :
  settable fields → cache_sound cache → length val = length fields →
  fields !! i = Some f → Tag f ≠ "" → intKind (FieldKind f) = true →
  strings.TrimSpace key = tagName (Tag f) →
  (- 2 ^ 63 ≤ n < 2 ^ 63)%Z →
  ∃ m vals,
    toStrMap (VArr [VString key; VInt64 n]) = Ok m
    ∧ m !! tagName (Tag f) = Some (strconv.FormatInt n)
    ∧ (assign float ParseFloat round32 (TStruct fields) (StructVal val) m cache).1
      = Ok (StructVal vals)
    ∧ vals !! i = Some (IntVal (convInt (FieldKind f) n)).
Proof.
  intros Hset Hc Hlen Hf Htag Hk Hkey Hn.
  exists {[ tagName (Tag f) := strconv.FormatInt n ]}.
  eexists. split; [|split; [apply lookup_singleton_eq|split]].
  - rewrite toStrMap_pairs. cbn. rewrite Hkey. by rewrite insert_empty.
  - unfold assign.
    destruct (loadMeta_struct fields cache Hc) as [Hm _].
    destruct (loadMeta (TStruct fields) cache) as [r cache']. simpl in Hm. subst r.
    cbn [fst].
    pose proof (assignLoop_fieldwise float ParseFloat round32
                  {[ tagName (Tag f) := strconv.FormatInt n ]} fields [] val Hset Hlen)
      as H.
    simpl in H. rewrite drop_0 in H. rewrite H. reflexivity.
  - destruct (lookup_lt_is_Some_2 val i) as [old Hold];
      [rewrite Hlen; by eapply lookup_lt_Some|].
    rewrite lookup_zip_with, Hf, Hold. csimpl. f_equal.
    unfold assigned. apply String.eqb_neq in Htag. rewrite Htag.
    rewrite lookup_singleton_eq. csimpl.
    unfold coerce.
    rewrite TrimSpace_FormatInt, (ParseInt_FormatInt n) by lia.
    by destruct (FieldKind f).
Qed.

Lemma int_field_round_trip_witness :
  ∃ m vals,
    toStrMap (VArr [VString " qty"; VInt64 2147483655]) = Ok m
    ∧ m !! "qty" = Some "2147483655"
    ∧ (assign unit (λ _, None) id
         (TStruct [{| Tag := "@qty,NUMERIC"; Exported := true; FieldKind := KInt32 |}])
         (StructVal [IntVal 0%Z]) m ∅).1
      = Ok (StructVal vals)
    ∧ vals !! 0%nat = Some (IntVal (-2147483641)%Z).
Proof.
  assert (cache_sound ∅) as Hc by (intros fs ms H; by rewrite lookup_empty in H).
  assert (settable [{| Tag := "@qty,NUMERIC"; Exported := true; FieldKind := KInt32 |}])
    as Hset by (repeat constructor).
  exact (int_field_round_trip unit (λ _, None) id
           [{| Tag := "@qty,NUMERIC"; Exported := true; FieldKind := KInt32 |}]
           [IntVal 0%Z] " qty" 2147483655 0
           {| Tag := "@qty,NUMERIC"; Exported := true; FieldKind := KInt32 |} ∅
           Hset Hc eq_refl eq_refl ltac:(done) eq_refl eq_refl ltac:(lia)).
Defined.

(** ** The schema builder *)

Section schema.

Local Open Scope list_scope.
Local Open Scope nat_scope.

Lemma Split_nonempty s sep : strings.Split s sep ≠ [].
Proof.
  destruct s as [|c s]; simpl; [done|].
  destruct (Ascii.eqb c sep); [done|]. by destruct (strings.Split s sep).
Qed.

(** The first loop over the attributes keeps the last type word. *)
Lemma typeStep_fold attrs : ∀ ty,
  foldl index.typeStep ty attrs
  = default ty (last (filter (λ u, isTypeWord u = true) (strings.ToUpper <$> attrs))).
Proof.
  induction attrs as [|a attrs IH]; intros ty; [done|].
  cbn [foldl fmap list_fmap]. rewrite IH, filter_cons.
  unfold index.typeStep. fold (isTypeWord (strings.ToUpper a)).
  destruct (isTypeWord (strings.ToUpper a)) eqn:E.
  - rewrite decide_True by done.
    destruct (filter _ (strings.ToUpper <$> attrs)) as [|u us] eqn:Ef; [done|].
    change (last (strings.ToUpper a :: u :: us)) with (last (u :: us)).
    destruct (last (u :: us)) eqn:El; [done|]. by apply last_None in El.
  - by rewrite decide_False by done.
Qed.

(** The second loop appends the flags in the order of the attributes. *)
Lemma flagStep_fold attrs : ∀ out,
  foldl index.flagStep out attrs = out ++ omap flagOf attrs.
Proof.
  induction attrs as [|a attrs IH]; intros out; cbn [foldl omap list_omap].
  - by rewrite app_nil_r.
  - rewrite IH. unfold index.flagStep, flagOf.
    destruct (_ || _); [by rewrite <- app_assoc|].
    destruct (String.eqb _ "PK"); [by rewrite <- app_assoc|done].
Qed.

Lemma fieldStep_entry out f : index.fieldStep out f = Ok (out ++ schemaEntry f).
Proof.
  unfold index.fieldStep, schemaEntry, tagName.
  destruct (String.eqb (Tag f) ""); [by rewrite app_nil_r|].
  pose proof (Split_nonempty (Tag f) ",") as Hne.
  destruct (strings.Split (Tag f) ",") as [|part0 attrs]; [done|].
  cbn [hd tl]. rewrite flagStep_fold, typeStep_fold. unfold typeOf.
  by rewrite <- app_assoc.
Qed.

Lemma schemaLoop_entries fields : ∀ out,
  index.schemaLoop fields out = Ok (out ++ concat (schemaEntry <$> fields)).
Proof.
  induction fields as [|f fields IH]; intros out; simpl.
  - by rewrite app_nil_r.
  - rewrite fieldStep_entry. csimpl. rewrite IH. by rewrite <- app_assoc.
Qed.

Lemma typeOf_keyword attrs :
  typeOf attrs ∈ ["TEXT"; "NUMERIC"; "TAG"; "GEO"; "VECTOR"]%string.
Proof.
  unfold typeOf.
  destruct (last _) as [u|] eqn:E; [|set_solver].
  apply last_Some_elem_of, list_elem_of_filter in E as [Hu _]. simpl.
  unfold isTypeWord in Hu.
  repeat (apply orb_true_iff in Hu as [Hu|Hu]);
    apply String.eqb_eq in Hu; rewrite Hu; set_solver.
Qed.

Lemma flagOf_keyword a u :
  flagOf a = Some u → u ∈ ["SORTABLE"; "NOINDEX"; "NOSTEM"]%string.
Proof.
  unfold flagOf. destruct (_ || _) eqn:E.
  - intros [= <-]. repeat (apply orb_true_iff in E as [E|E]);
      apply String.eqb_eq in E; rewrite E; set_solver.
  - destruct (String.eqb _ "PK"); [|done]. intros [= <-]. set_solver.
Qed.

(** Schema entries and decoder metadata name the same fields. *)
Lemma schema_meta_names fields : ∀ i,
  ∃ entries,
    concat (schemaEntry <$> fields) = concat entries
    ∧ Forall2 (λ e fm, ∃ ty flags,
                 e = name fm :: ty :: flags
                 ∧ ty ∈ ["TEXT"; "NUMERIC"; "TAG"; "GEO"; "VECTOR"]%string
                 ∧ Forall (λ u, u ∈ ["SORTABLE"; "NOINDEX"; "NOSTEM"]%string) flags)
              entries (buildMetaLoop fields i []).
Proof.
  induction fields as [|f fields IH]; intros i.
  - exists []. split; [done|constructor].
  - destruct (IH (S i)) as (entries & Hc & Hf).
    rewrite buildMetaLoop_cons. cbn [fmap list_fmap concat].
    unfold schemaEntry at 1. destruct (String.eqb (Tag f) "").
    + exists entries. by split.
    + eexists (_ :: entries). split; [cbn [concat]; by rewrite Hc|].
      constructor; [|done]. eexists _, _. split; [reflexivity|].
      split; [apply typeOf_keyword|].
      apply Forall_forall. intros u Hu.
      apply list_elem_of_omap in Hu as (a & _ & Ha). by eapply flagOf_keyword.
Qed.

End schema.

(** X18. [BuildSchema] never fails on a struct type and works field by
    field: an untagged field gives nothing; a tagged one gives its
    name (the first tag part without a leading @), then its type (the
    last of NUMERIC, TAG, GEO, VECTOR among the attributes in any
    letter case, TEXT when there is none), then one flag for each
    SORTABLE, NOINDEX, NOSTEM or PK attribute in the order written, PK
    counting as NOINDEX. *)
Theorem BuildSchema_entries (fields : list StructField) :
  index.BuildSchema (TStruct fields) = Ok (concat (schemaEntry <$> fields)).
Proof. unfold index.BuildSchema. by rewrite schemaLoop_entries. Qed.

(** X19. The schema and the decoder agree on the fields.  The result
    of [BuildSchema] is a sequence of entries, one for each metadata
    record [buildMeta] makes for the same struct type and in the same
    order; an entry starts with the name the decoder looks up in a
    row, followed by one type keyword and by flags taken from
    SORTABLE, NOINDEX and NOSTEM only. *)
Theorem BuildSchema_matches_buildMeta (fields : list StructField) :
  ∃ entries metas,
    index.BuildSchema (TStruct fields) = Ok (concat entries)
    ∧ buildMeta (TStruct fields) = Ok metas
    ∧ Forall2 (λ e fm, ∃ ty flags,
                 e = (name fm :: ty :: flags)%list
                 ∧ ty ∈ ["TEXT"; "NUMERIC"; "TAG"; "GEO"; "VECTOR"]
                 ∧ Forall (λ u, u ∈ ["SORTABLE"; "NOINDEX"; "NOSTEM"]) flags)
              entries metas.
Proof.
  destruct (schema_meta_names fields 0) as (entries & Hc & Hf).
  exists entries, (buildMetaLoop fields 0 []). split; [|by split].
  unfold index.BuildSchema. by rewrite schemaLoop_entries, Hc.
Qed.

(** ** The driver *)

Section driver_helpers.

Local Open Scope list_scope.
Local Open Scope nat_scope.

Lemma stringifyLoop_appends args : ∀ i sb,
  driver.stringifyLoop args i sb = (sb ++ driver.stringifyLoop args i "")%string.
Proof.
  induction args as [|a args IH]; intros i sb; simpl.
  - by rewrite append_nil_r.
  - rewrite IH. rewrite (IH _ (WriteString _ _)).
    destruct (0 <? i); str_norm.
Qed.

Lemma stringifyLoop_tail args : ∀ i,
  driver.stringifyLoop args (S i) ""
  = String.concat "" ((λ y, " " ++ y)%string <$> (driver.toString <$> args)).
Proof.
  induction args as [|a args IH]; intros i; simpl; [done|].
  rewrite stringifyLoop_appends, IH. destruct args; simpl; str_norm.
Qed.

(** The row loop fills the cells from [j] on and leaves the earlier
    ones. *)
Lemma rowLoop_fmap vals : ∀ j row,
  length row = j + length vals →
  driver.rowLoop vals j row = take j row ++ (driver.toString <$> vals).
Proof.
  induction vals as [|v vals IH]; intros j row Hlen; simpl in *.
  - rewrite app_nil_r, take_ge; [done|lia].
  - rewrite IH by (rewrite length_insert; lia).
    rewrite (take_S_r _ _ (driver.toString v)) by (apply list_lookup_insert_eq; lia).
    rewrite take_insert_ge by lia. by rewrite <- app_assoc.
Qed.

Lemma rowsLoop_fmap (rowss : list (list value)) : ∀ i rows,
  length rows = i + length rowss →
  driver.rowsLoop (VArr <$> rowss) i rows
  = driver.Returned (take i rows ++ ((λ vals : list value, driver.toString <$> vals) <$> rowss)).
Proof.
  induction rowss as [|vals rowss IH]; intros i rows Hlen; simpl in *.
  - rewrite app_nil_r, take_ge; [done|lia].
  - rewrite IH by (rewrite length_insert; lia).
    rewrite rowLoop_fmap by (rewrite length_replicate; lia).
    rewrite (take_S_r _ _ (driver.toString <$> vals))
      by (apply list_lookup_insert_eq; lia).
    rewrite take_insert_ge by lia. by rewrite <- app_assoc.
Qed.

(** The rows loop returns only when every element is an array. *)
Lemma rowsLoop_Returned rowsRaw : ∀ i rows out,
  driver.rowsLoop rowsRaw i rows = driver.Returned out →
  ∃ rowss, rowsRaw = VArr <$> rowss.
Proof.
  induction rowsRaw as [|r rowsRaw IH]; intros i rows out H.
  - by exists [].
  - simpl in H. destruct r; try done.
    apply IH in H as [rowss ->]. by eexists (_ :: rowss).
Qed.

Lemma rowsLoop_not_Failed rowsRaw : ∀ i rows e,
  driver.rowsLoop rowsRaw i rows ≠ driver.Failed e.
Proof.
  induction rowsRaw as [|r rowsRaw IH]; intros i rows e; simpl; [done|].
  destruct r; try done.
Qed.

Lemma rowsLoop_Crashed rowsRaw : ∀ i rows c,
  driver.rowsLoop rowsRaw i rows = driver.Crashed c →
  ∃ got, c = driver.InterfaceConversion got "[]interface {}".
Proof.
  induction rowsRaw as [|r rowsRaw IH]; intros i rows c H; simpl in H; [done|].
  destruct r; try (injection H as <-; by eexists); by eapply IH.
Qed.

End driver_helpers.

(** X20. [CursorRead] sends nothing for cursor 0 and otherwise the one
    command FT.CURSOR READ index cursor COUNT count.  It returns rows
    exactly when the cursor is not 0 and the reply is a pair of an
    array of arrays and an integer: the rows are the inner arrays with
    every cell rendered as text, in order, and the new cursor is the
    integer read as an unsigned 64-bit number. *)
Theorem CursorRead_returns
  (do : list value → result value) (index : string) (cursor count : Z)
  (rows : list (list string)) (c : Z) :
  (driver.CursorRead do index cursor count).2
  = (if (cursor =? 0)%Z then [] else [cursorCommand index cursor count])
  ∧ ((driver.CursorRead do index cursor count).1 = driver.Returned (rows, c)
     ↔ cursor ≠ 0%Z
       ∧ ∃ (rowss : list (list value)) (next : Z),
           do (cursorCommand index cursor count)
           = Ok (VArr [VArr (VArr <$> rowss); VInt64 next])
           ∧ rows = (λ vals : list value, driver.toString <$> vals) <$> rowss
           ∧ c = (next mod 2 ^ 64)%Z).
Proof.
  unfold driver.CursorRead. fold (cursorCommand index cursor count).
  destruct (Z.eqb_spec cursor 0) as [->|Hc].
  { split; [done|]. split; [done|]. by intros [? _]. }
  destruct (do (cursorCommand index cursor count)) as [raw|e|p] eqn:Edo;
    [|split; [done|]; split; [done|]; by intros (_ & ? & ? & ? & _)..].
  assert (∀ x : driver.outcome (list (list string) * Z),
            ¬ (∃ (rowss : list (list value)) (next : Z),
                 Ok raw = Ok (VArr [VArr (VArr <$> rowss); VInt64 next])) →
            (∀ r, x ≠ driver.Returned r) →
            x = driver.Returned (rows, c)
            ↔ cursor ≠ 0%Z
              ∧ ∃ (rowss : list (list value)) (next : Z),
                  Ok raw = Ok (VArr [VArr (VArr <$> rowss); VInt64 next])
                  ∧ rows = (λ vals : list value, driver.toString <$> vals) <$> rowss
                  ∧ c = (next mod 2 ^ 64)%Z) as Hno.
  { intros x Hshape Hx. split; [by intros ?%Hx|].
    intros (_ & rowss & next & E & _). destruct Hshape. by exists rowss, next. }
  destruct raw as [| | | | |[|reply0 [|reply1 [|? ?]]]| | | |];
    try (split; [done|]; apply Hno; [by intros (? & ? & [=])|done]).
  destruct reply0 as [| | | | |rowsRaw| | | |];
    try (split; [done|]; apply Hno; [by intros (? & ? & [=])|done]).
  destruct reply1 as [| | |newCursor| | | | | |];
    try (split; [done|]; apply Hno; [by intros (? & ? & [=])|done]).
  destruct (driver.rowsLoop rowsRaw 0 _) as [out|e|cr] eqn:El; cbn [fst snd];
    (split; [done|]).
  - destruct (rowsLoop_Returned _ _ _ _ El) as [rowss ->].
    rewrite rowsLoop_fmap in El by (rewrite length_replicate, length_fmap; lia).
    simpl in El. injection El as <-. split.
    + intros [= <- <-]. split; [done|]. by exists rowss, newCursor.
    + intros (_ & rowss' & next & [= E ->] & -> & ->).
      assert (rowss = rowss') as <-; [|done].
      clear -E. revert rowss' E.
      induction rowss as [|r rowss IH]; intros [|r' rowss'] E; try done.
      injection E as -> E. f_equal. by apply IH.
  - apply Hno; [|done]. intros (rowss & next & [= -> _]).
    rewrite rowsLoop_fmap in El by (rewrite length_replicate, length_fmap; lia).
    done.
  - apply Hno; [|done]. intros (rowss & next & [= -> _]).
    rewrite rowsLoop_fmap in El by (rewrite length_replicate, length_fmap; lia).
    done.
Qed.

(** X21. [CursorRead] checks the length of the reply but not the types
    inside it: a two-element reply that is not an array of arrays
    followed by an integer ends in an interface-conversion panic, not
    in the reply-shape error. *)
Theorem CursorRead_unchecked_assertions
  (do : list value → result value) (index : string) (cursor count : Z)
  (a b : value) :
  cursor ≠ 0%Z →
  do (cursorCommand index cursor count) = Ok (VArr [a; b]) →
  ¬ (∃ (rowss : list (list value)) (next : Z), a = VArr (VArr <$> rowss) ∧ b = VInt64 next) →
  ∃ got want,
    (driver.CursorRead do index cursor count).1
    = driver.Crashed (driver.InterfaceConversion got want).
Proof.
  intros Hc Hdo Hshape. unfold driver.CursorRead.
  fold (cursorCommand index cursor count).
  destruct (Z.eqb_spec cursor 0) as [|_]; [done|]. rewrite Hdo.
  destruct a as [| | | | |rowsRaw| | | |]; try (by eexists _, _).
  destruct b as [| | |newCursor| | | | | |]; try (by eexists _, _).
  destruct (driver.rowsLoop rowsRaw 0 _) as [out|e|cr] eqn:El; cbn [fst].
  - destruct (rowsLoop_Returned _ _ _ _ El) as [rowss ->].
    destruct Hshape. by exists rowss, newCursor.
  - by apply rowsLoop_not_Failed in El.
  - apply rowsLoop_Crashed in El as [got ->]. by eexists _, _.
Qed.

Lemma CursorRead_unchecked_assertions_witness :
  ∃ got want,
    (driver.CursorRead (λ _, Ok (VArr [VArr [VString "row"]; VInt64 0])) "idx" 7 100).1
    = driver.Crashed (driver.InterfaceConversion got want).
Proof.
  refine (CursorRead_unchecked_assertions
            (λ _, Ok (VArr [VArr [VString "row"]; VInt64 0])) "idx" 7 100
            (VArr [VString "row"]) (VInt64 0) _ eq_refl _).
  - done.
  - intros (rowss & next & E & _). by destruct rowss as [|r rowss].
Defined.

(** X22. The command text recorded on the trace span is the arguments
    rendered as text and joined by single spaces; for the arguments of
    a search or an aggregation, which are all strings, it is those
    strings joined by spaces. *)
Theorem stringifyCmd_joined (args : list value) (ss : list string) :
  driver.stringifyCmd args = String.concat " " (driver.toString <$> args)
  ∧ driver.stringifyCmd (VString <$> ss) = String.concat " " ss.
Proof.
  assert (∀ xs, driver.stringifyCmd xs = String.concat " " (driver.toString <$> xs))
    as Hall.
  { intros [|x xs]; [done|]. unfold driver.stringifyCmd.
    change (driver.stringifyLoop (x :: xs) 0 "")
      with (driver.stringifyLoop xs 1 (WriteString "" (driver.toString x))).
    rewrite stringifyLoop_appends, stringifyLoop_tail, fmap_cons, concat_sep_strings.
    unfold WriteString. str_norm. }
  split; [apply Hall|]. rewrite Hall. f_equal.
  rewrite <- list_fmap_compose. by rewrite list_fmap_id.
Qed.

(** ** The slice helpers *)

Section slice_sets.

Local Open Scope list_scope.
Local Open Scope nat_scope.

Context {T : Type} `{Countable T}.

Lemma uniqueLoop_out (xs : list T) : ∀ seen out,
  internal.uniqueLoop xs seen out = out ++ internal.uniqueLoop xs seen [].
Proof.
  induction xs as [|x xs IH]; intros seen out; simpl.
  - by rewrite app_nil_r.
  - destruct (decide (x ∈ seen)); [apply IH|].
    rewrite IH, (IH _ [x]). by rewrite app_assoc.
Qed.

Lemma filter_filter_l (P Q : T → Prop) `{∀ x, Decision (P x)} `{∀ x, Decision (Q x)}
      (l : list T) :
  (∀ x, P x → Q x) → filter P (filter Q l) = filter P l.
Proof.
  intros HPQ. induction l as [|x l IH]; [done|].
  rewrite !filter_cons. destruct (decide (Q x)) as [HQ|HQ].
  - rewrite filter_cons. destruct (decide (P x)); by rewrite IH.
  - rewrite IH. destruct (decide (P x)) as [HP|HP]; [by apply HPQ in HP|done].
Qed.

(** The loop of [Unique], started with [seen], keeps the elements
    outside [seen] that [Unique] keeps. *)
Lemma uniqueLoop_seen (xs : list T) : ∀ seen,
  internal.uniqueLoop xs seen [] = filter (λ y, y ∉ seen) (internal.Unique xs).
Proof.
  unfold internal.Unique.
  induction xs as [|x xs IH]; intros seen; [done|].
  cbn [internal.uniqueLoop].
  rewrite (decide_False (P := x ∈ (∅ : gset T))) by set_solver.
  rewrite (uniqueLoop_out xs ({[x]} ∪ ∅) ([] ++ [x])).
  rewrite (IH ({[x]} ∪ ∅)). cbn [app].
  destruct (decide (x ∈ seen)) as [Hx|Hx].
  - rewrite IH, filter_cons, decide_False by set_solver.
    symmetry. apply filter_filter_l. set_solver.
  - rewrite (uniqueLoop_out xs ({[x]} ∪ seen) ([] ++ [x])).
    rewrite (IH ({[x]} ∪ seen)), filter_cons, decide_True by done. cbn [app]. f_equal.
    rewrite list_filter_filter. apply list_filter_iff. set_solver.
Qed.

Lemma Unique_cons (x : T) xs :
  internal.Unique (x :: xs) = x :: filter (λ y, y ≠ x) (internal.Unique xs).
Proof.
  unfold internal.Unique at 1. cbn [internal.uniqueLoop].
  rewrite (decide_False (P := x ∈ (∅ : gset T))) by set_solver.
  rewrite uniqueLoop_out, uniqueLoop_seen. cbn [app]. f_equal.
  apply list_filter_iff. set_solver.
Qed.

Lemma Unique_elem_of (xs : list T) y : y ∈ internal.Unique xs ↔ y ∈ xs.
Proof.
  induction xs as [|x xs IH]; [done|].
  rewrite Unique_cons, !elem_of_cons, list_elem_of_filter, IH.
  destruct (decide (y = x)); naive_solver.
Qed.

Lemma Unique_NoDup (xs : list T) : NoDup (internal.Unique xs).
Proof.
  induction xs as [|x xs IH]; [constructor|].
  rewrite Unique_cons. constructor.
  - rewrite list_elem_of_filter. naive_solver.
  - by apply NoDup_filter.
Qed.

Lemma Unique_id (xs : list T) : NoDup xs → internal.Unique xs = xs.
Proof.
  induction 1 as [|x xs Hx _ IH]; [done|].
  rewrite Unique_cons, IH. f_equal. clear IH.
  induction xs as [|y ys IHy]; [done|].
  rewrite filter_cons, decide_True by set_solver. f_equal.
  apply IHy. set_solver.
Qed.





End slice_sets.

(** X23. [Unique] keeps the first occurrence of every element, in the
    order of the input, for element types whose equality is identity:
    the result has no duplicates and the elements of the input, its
    head is the head of the input, and a list without duplicates, such
    as a result of [Unique], comes back unchanged. *)
Theorem Unique_first_seen {T : Type} `{Countable T} (x : T) (xs : list T) :
  NoDup (internal.Unique xs)
  ∧ (∀ y, y ∈ internal.Unique xs ↔ y ∈ xs)
  ∧ internal.Unique (x :: xs) = x :: filter (λ y, y ≠ x) (internal.Unique xs)
  ∧ (NoDup xs → internal.Unique xs = xs)
  ∧ internal.Unique (internal.Unique xs) = internal.Unique xs.
Proof.
  split; [apply Unique_NoDup|]. split; [apply Unique_elem_of|].
  split; [apply Unique_cons|]. split; [apply Unique_id|].
  apply Unique_id, Unique_NoDup.
Qed.



Section slice_order.

Local Open Scope list_scope.
Local Open Scope nat_scope.

Context {T : Type} `{Countable T}.

Lemma chunkLoop_pieces (xs : list T) n : 0 < n → ∀ fuel i out,
  length xs - i ≤ fuel →
  ∃ r, internal.chunkLoop fuel xs n i out = out ++ r
       ∧ concat r = drop i xs
       ∧ length xs - i ≤ length r * n < length xs - i + n
       ∧ ∀ k c, r !! k = Some c →
                c = take n (drop (i + k * n) xs) ∧ i + k * n < length xs.
Proof.
  intros Hn. induction fuel as [|fuel IH]; intros i out Hfuel.
  - exists []. rewrite app_nil_r, drop_ge by lia.
    split; [done|]. split; [done|]. split; [simpl; lia|]. by intros k c.
  - cbn [internal.chunkLoop]. destruct (decide (i < length xs)) as [Hi|Hi].
    + cbv zeta.
      assert (take ((if decide (length xs < i + n) then length xs else i + n) - i)
                (drop i xs) = take n (drop i xs)) as ->.
      { destruct (decide (length xs < i + n)) as [Hlt|Hlt].
        - rewrite !take_ge; [done|rewrite length_drop; lia..].
        - f_equal. lia. }
      destruct (IH (i + n) (out ++ [take n (drop i xs)])) as (r & -> & Hc & Hl & Hk);
        [lia|].
      exists (take n (drop i xs) :: r).
      split; [|split; [|split]].
      * by rewrite <- app_assoc.
      * cbn [concat]. rewrite Hc, <- (drop_drop xs n i). apply take_drop.
      * cbn [length]. rewrite Nat.mul_succ_l.
        destruct (decide (i + n ≤ length xs)); [lia|].
        destruct r as [|c r]; [simpl; lia|simpl in Hl; lia].
      * intros [|k] c Hlook.
        -- injection Hlook as <-. rewrite Nat.add_0_r. by split.
        -- apply Hk in Hlook as [-> Hlt]. split; [f_equal; f_equal|]; lia.
    + exists []. rewrite app_nil_r, drop_ge by lia.
      split; [done|]. split; [done|]. split; [simpl; lia|]. by intros k c.
Qed.

Lemma reverseLoop_rev len (suf : list T) : ∀ i out,
  len = i + length suf → length out = len →
  internal.reverseLoop len suf i out = rev suf ++ drop (length suf) out.
Proof.
  induction suf as [|x suf IH]; intros i out Hlen Hout; simpl in *.
  - by rewrite drop_0.
  - rewrite IH by (rewrite ?length_insert; lia).
    replace (len - 1 - i) with (length suf) by lia.
    rewrite (drop_S _ x (length suf)) by (apply list_lookup_insert_eq; lia).
    rewrite drop_insert_lt by lia. by rewrite <- app_assoc.
Qed.

Lemma insert_middle (l1 l2 : list T) x y :
  <[length l1 := x]> (l1 ++ y :: l2) = l1 ++ x :: l2.
Proof. by rewrite insert_app_r_alt, Nat.sub_diag by lia. Qed.

Lemma reverseInPlaceLoop_rev fuel : ∀ (pre mid post : list T),
  length mid ≤ 2 * fuel →
  internal.reverseInPlaceLoop fuel (pre ++ mid ++ post)
    (Z.of_nat (length pre)) (Z.of_nat (length pre) + Z.of_nat (length mid) - 1)
  = pre ++ rev mid ++ post.
Proof.
  induction fuel as [|fuel IH]; intros pre mid post Hfuel.
  - destruct mid; [done|simpl in Hfuel; lia].
  - cbn [internal.reverseInPlaceLoop].
    destruct mid as [|a mid];
      [by rewrite (proj2 (Z.ltb_ge _ _)) by (simpl; lia)|].
    destruct mid as [|b mid _] using rev_ind.
    { by rewrite (proj2 (Z.ltb_ge _ _)) by (simpl; lia). }
    rewrite length_cons, length_app in *. simpl in Hfuel.
    destruct (Z.ltb_spec (Z.of_nat (length pre))
                (Z.of_nat (length pre) + Z.of_nat (S (length mid + length [b])) - 1))
      as [_|Hge]; [|simpl in Hge; lia].
    replace (Z.to_nat (Z.of_nat (length pre))) with (length pre) by lia.
    replace (Z.to_nat (Z.of_nat (length pre)
                       + Z.of_nat (S (length mid + length [b])) - 1))
      with (length (pre ++ a :: mid)) by (rewrite length_app; simpl; lia).
    replace (pre ++ (a :: mid ++ [b]) ++ post)
      with (pre ++ a :: mid ++ b :: post)
      by (by rewrite <- app_comm_cons, <- app_assoc).
    rewrite (list_lookup_middle pre _ a) by done.
    replace (pre ++ a :: mid ++ b :: post)
      with ((pre ++ a :: mid) ++ b :: post)
      by (by rewrite <- app_assoc).
    rewrite (list_lookup_middle (pre ++ a :: mid) _ b) by done.
    rewrite <- (app_assoc pre), <- app_comm_cons.
    rewrite (insert_middle pre _ b a).
    replace (pre ++ b :: mid ++ b :: post)
      with ((pre ++ b :: mid) ++ b :: post)
      by (by rewrite <- app_assoc).
    replace (length (pre ++ a :: mid)) with (length (pre ++ b :: mid))
      by (by rewrite !length_app).
    rewrite (insert_middle (pre ++ b :: mid) _ a b).
    replace ((pre ++ b :: mid) ++ a :: post)
      with ((pre ++ [b]) ++ mid ++ a :: post)
      by (by rewrite <- !app_assoc).
    replace (Z.of_nat (length pre) + 1)%Z with (Z.of_nat (length (pre ++ [b])))
      by (rewrite length_app; simpl; lia).
    replace (Z.of_nat (length pre) + Z.of_nat (S (length mid + length [b])) - 1 - 1)%Z
      with (Z.of_nat (length (pre ++ [b])) + Z.of_nat (length mid) - 1)%Z
      by (rewrite length_app; simpl; lia).
    rewrite IH by lia.
    cbn [rev]. rewrite rev_app_distr. cbn [rev app].
    by rewrite <- !app_assoc.
Qed.

End slice_order.

Section slice_folds.

Local Open Scope list_scope.
Local Open Scope nat_scope.

Context {T : Type} `{Countable T}.




End slice_folds.

Section slice_extrema.

Local Open Scope list_scope.

Context {T : Type} (lt : T → T → bool).
Hypothesis lt_irrefl : ∀ x, lt x x = false.
Hypothesis lt_trans : ∀ x y z, lt x y = true → lt y z = true → lt x z = true.

Lemma foldl_min rest : ∀ m0 (seen : list T),
  m0 ∈ seen → (∀ x, x ∈ seen → lt x m0 = false) →
  let m := foldl (λ m x, if lt x m then x else m) m0 rest in
  m ∈ seen ++ rest ∧ ∀ x, x ∈ seen ++ rest → lt x m = false.
Proof.
  induction rest as [|y rest IH]; intros m0 seen Hin Hmin; cbn [foldl].
  - rewrite app_nil_r. by split.
  - replace (seen ++ y :: rest) with ((seen ++ [y]) ++ rest)
      by (by rewrite <- app_assoc).
    apply IH.
    + destruct (lt y m0); set_solver.
    + intros x [Hx|Hx%list_elem_of_singleton]%elem_of_app.
      * destruct (lt y m0) eqn:E; [|by apply Hmin].
        destruct (lt x y) eqn:E2; [|done].
        rewrite <- (Hmin x Hx). symmetry. by eapply lt_trans.
      * subst x. by destruct (lt y m0) eqn:E.
Qed.

Lemma foldl_max rest : ∀ m0 (seen : list T),
  m0 ∈ seen → (∀ x, x ∈ seen → lt m0 x = false) →
  let m := foldl (λ m x, if lt m x then x else m) m0 rest in
  m ∈ seen ++ rest ∧ ∀ x, x ∈ seen ++ rest → lt m x = false.
Proof.
  induction rest as [|y rest IH]; intros m0 seen Hin Hmax; cbn [foldl].
  - rewrite app_nil_r. by split.
  - replace (seen ++ y :: rest) with ((seen ++ [y]) ++ rest)
      by (by rewrite <- app_assoc).
    apply IH.
    + destruct (lt m0 y); set_solver.
    + intros x [Hx|Hx%list_elem_of_singleton]%elem_of_app.
      * destruct (lt m0 y) eqn:E; [|by apply Hmax].
        destruct (lt y x) eqn:E2; [|done].
        rewrite <- (Hmax x Hx). symmetry. by eapply lt_trans.
      * subst x. by destruct (lt m0 y) eqn:E.
Qed.

End slice_extrema.

Section slice_sum.

Local Open Scope Z_scope.

Variable bits : Z.
Hypothesis bits_pos : 0 < bits.

Lemma pow_half : 2 ^ bits = 2 * 2 ^ (bits - 1).
Proof. rewrite <- Z.pow_succ_r by lia. f_equal. lia. Qed.

Lemma wrapAdd_spec a b :
  (∃ k, internal.wrapAdd bits a b = a + b + k * 2 ^ bits)
  ∧ - 2 ^ (bits - 1) <= internal.wrapAdd bits a b < 2 ^ (bits - 1).
Proof.
  unfold internal.wrapAdd.
  assert (0 < 2 ^ (bits - 1)) by (apply Z.pow_pos_nonneg; lia).
  pose proof pow_half as Hh.
  pose proof (Z.mod_pos_bound (a + b + 2 ^ (bits - 1)) (2 ^ bits) ltac:(lia)) as Hb.
  split; [|lia].
  exists (- ((a + b + 2 ^ (bits - 1)) / 2 ^ bits)).
  pose proof (Z.div_mod (a + b + 2 ^ (bits - 1)) (2 ^ bits) ltac:(lia)). lia.
Qed.

Lemma Sum_spec xs :
  (∃ k, internal.Sum bits xs = foldr Z.add 0 xs + k * 2 ^ bits)
  ∧ - 2 ^ (bits - 1) <= internal.Sum bits xs < 2 ^ (bits - 1).
Proof.
  assert (0 < 2 ^ (bits - 1)) by (apply Z.pow_pos_nonneg; lia).
  unfold internal.Sum.
  induction xs as [|x xs IH] using rev_ind.
  - simpl. split; [by exists 0|lia].
  - rewrite foldl_app, foldr_app. cbn [foldl foldr].
    destruct IH as [[k Hk] _].
    destruct (wrapAdd_spec (foldl (internal.wrapAdd bits) 0 xs) x) as [[k' Hk'] Hr].
    split; [|exact Hr]. exists (k + k').
    rewrite Hk', Hk.
    assert (∀ l a, foldr Z.add a l = foldr Z.add 0 l + a) as Hf.
    { clear. induction l as [|y l IHl]; intros a; simpl; [lia|]. rewrite IHl. lia. }
    rewrite (Hf xs (x + 0)). lia.
Qed.

End slice_sum.

(** X26. [Chunk] cuts a slice into consecutive pieces of [n] elements,
    the last one possibly shorter: piece [k] is [xs[k*n : k*n+n]]
    clipped to the slice, no piece is empty, there are as many pieces
    as needed to cover the slice and no more, and the pieces joined
    give the slice back. *)
Theorem Chunk_pieces {T : Type} `{Countable T} (xs : list T) (n : Z) :
  (0 < n)%Z →
  concat (internal.Chunk xs n) = xs
  ∧ (length xs ≤ length (internal.Chunk xs n) * Z.to_nat n < length xs + Z.to_nat n)%nat
  ∧ ∀ k c, internal.Chunk xs n !! k = Some c →
           c = take (Z.to_nat n) (drop (k * Z.to_nat n) xs)
           ∧ (0 < length c ≤ Z.to_nat n)%nat.
Proof.
  intros Hn. unfold internal.Chunk.
  rewrite (proj2 (Z.leb_gt _ _)) by done.
  destruct (chunkLoop_pieces xs (Z.to_nat n) ltac:(lia) (length xs) 0%nat [])
    as (r & -> & Hc & Hl & Hk); [lia|].
  cbn [app]. split; [by rewrite Hc|]. split; [lia|].
  intros k c Hlook. apply Hk in Hlook as [-> Hlt]. split; [done|].
  rewrite length_take, length_drop. simpl in Hlt. lia.
Qed.

Lemma Chunk_pieces_witness :
  concat (internal.Chunk [1; 2; 3; 4; 5]%Z 2) = [1; 2; 3; 4; 5]%Z
  ∧ (length [1; 2; 3; 4; 5]%Z ≤ length (internal.Chunk [1; 2; 3; 4; 5]%Z 2) * Z.to_nat 2
     < length [1; 2; 3; 4; 5]%Z + Z.to_nat 2)%nat
  ∧ ∀ k c, internal.Chunk [1; 2; 3; 4; 5]%Z 2 !! k = Some c →
           c = take (Z.to_nat 2) (drop (k * Z.to_nat 2) [1; 2; 3; 4; 5]%Z)
           ∧ (0 < length c ≤ Z.to_nat 2)%nat.
Proof. exact (Chunk_pieces [1; 2; 3; 4; 5]%Z 2 eq_refl). Defined.

(** X27. [Reverse] and [ReverseInPlace] both produce the elements in
    reverse order: the copy returned by the first and the slice as the
    second leaves it are the same, whatever the length. *)
Theorem Reverse_rev {T : Type} `{Countable T} (zero : T) (xs : list T) :
  internal.Reverse zero xs = rev xs
  ∧ internal.ReverseInPlace xs = rev xs
  ∧ internal.ReverseInPlace (internal.ReverseInPlace xs) = xs.
Proof.
  assert (∀ l : list T, internal.ReverseInPlace l = rev l) as Hin.
  { intros l. unfold internal.ReverseInPlace.
    pose proof (reverseInPlaceLoop_rev (length l) [] l []) as Hl.
    cbn [app length] in Hl. rewrite !app_nil_r in Hl. apply Hl. lia. }
  split; [|split; [apply Hin|by rewrite !Hin, rev_involutive]].
  unfold internal.Reverse.
  rewrite (reverseLoop_rev (length xs) xs 0) by (rewrite ?length_replicate; lia).
  rewrite drop_ge by (by rewrite length_replicate). apply app_nil_r.
Qed.

(** X28. On a non-empty slice [Min] returns an element of the slice
    that no element is less than, and [Max] one that is less than no
    element, for any ordering that is irreflexive and transitive; on
    the empty slice both panic. *)
Theorem Min_Max_extremal {T : Type} (lt : T → T → bool) (xs : list T) :
  (∀ x, lt x x = false) →
  (∀ x y z, lt x y = true → lt y z = true → lt x z = true) →
  match xs with
  | [] => internal.Min lt xs = None ∧ internal.Max lt xs = None
  | _ :: _ =>
      ∃ lo hi, internal.Min lt xs = Some lo ∧ internal.Max lt xs = Some hi
               ∧ lo ∈ xs ∧ hi ∈ xs
               ∧ ∀ x, x ∈ xs → lt x lo = false ∧ lt hi x = false
  end.
Proof.
  intros Hirr Htr. destruct xs as [|x0 rest]; [done|].
  destruct (foldl_min lt Hirr Htr rest x0 [x0]) as [Hlo Hmin];
    [set_solver|intros x ->%list_elem_of_singleton; apply Hirr|].
  destruct (foldl_max lt Hirr Htr rest x0 [x0]) as [Hhi Hmax];
    [set_solver|intros x ->%list_elem_of_singleton; apply Hirr|].
  eexists _, _. split; [reflexivity|]. split; [reflexivity|].
  split; [exact Hlo|]. split; [exact Hhi|].
  intros x Hx. split; [by apply Hmin|by apply Hmax].
Qed.

Lemma Min_Max_extremal_witness :
  ∃ lo hi, internal.Min Z.ltb [3; 1; 2]%Z = Some lo
           ∧ internal.Max Z.ltb [3; 1; 2]%Z = Some hi
           ∧ lo ∈ [3; 1; 2]%Z ∧ hi ∈ [3; 1; 2]%Z
           ∧ ∀ x, x ∈ [3; 1; 2]%Z → Z.ltb x lo = false ∧ Z.ltb hi x = false.
Proof.
  refine (Min_Max_extremal Z.ltb [3; 1; 2]%Z Z.ltb_irrefl _).
  intros x y z Hxy Hyz. apply Z.ltb_lt in Hxy, Hyz. apply Z.ltb_lt. lia.
Defined.

(** X29. [Sum] at a signed integer type of [bits] bits returns the
    true sum reduced into the range of the type: it differs from the
    true sum by a multiple of 2^bits, and equals it whenever the true
    sum fits, even if a partial sum overflowed on the way. *)
Theorem Sum_wraps (bits : Z) (xs : list Z) :
  (0 < bits)%Z →
  (- 2 ^ (bits - 1) ≤ internal.Sum bits xs < 2 ^ (bits - 1))%Z
  ∧ (∃ k, internal.Sum bits xs = foldr Z.add 0 xs + k * 2 ^ bits)%Z
  ∧ ((- 2 ^ (bits - 1) ≤ foldr Z.add 0 xs < 2 ^ (bits - 1))%Z
     → internal.Sum bits xs = foldr Z.add 0%Z xs).
Proof.
  intros Hb. destruct (Sum_spec bits Hb xs) as [[k Hk] Hr].
  split; [exact Hr|]. split; [by exists k|].
  intros Hfit. pose proof (pow_half bits Hb) as Hh.
  assert (0 < 2 ^ (bits - 1))%Z by (apply Z.pow_pos_nonneg; lia).
  assert (k = 0)%Z by nia. subst k. lia.
Qed.

Lemma Sum_wraps_witness :
  (- 2 ^ (8 - 1) ≤ internal.Sum 8 [100; 100; -100] < 2 ^ (8 - 1))%Z
  ∧ (∃ k, internal.Sum 8 [100; 100; -100] = foldr Z.add 0 [100; 100; -100] + k * 2 ^ 8)%Z
  ∧ ((- 2 ^ (8 - 1) ≤ foldr Z.add 0 [100; 100; -100] < 2 ^ (8 - 1))%Z
     → internal.Sum 8 [100; 100; -100]%Z = foldr Z.add 0%Z [100; 100; -100]%Z).
Proof. exact (Sum_wraps 8 [100; 100; -100]%Z eq_refl). Defined.

